(** * Manalyze: the PE import directory parser (manape/imports.cpp)

    A shallow embedding of [PE::_parse_imports] and of the import query
    layer ([get_imported_dlls], [get_imported_functions],
    [_find_imported_dlls], [find_imports]), with the properties of the
    import subsystem proved over it.

    Of the output formatter (output_formatter.h, output_formatter.cpp):
    [OutputFormatter::add_data], [OutputFormatter::find_node] and
    [uint64_to_version_number].

    The byte source is a C [FILE*]: a byte sequence with a read cursor.
    [fread], [fseek] and [ftell] are modelled below.  The collaborators of
    the parser that live in other translation units ([_rva_to_offset],
    [_reach_directory], [utils::read_string_at_offset],
    [utils::read_ascii_string], [boost::regex]) are parameters of the
    parser; reference models of them are given for running the parser on
    concrete images. *)

From Stdlib Require Import ZArith List String Ascii Bool Lia DecimalString DecimalN.
From Stdlib.Strings Require Import Byte.
Import ListNotations.
Open Scope string_scope.
Open Scope list_scope.
Open Scope Z_scope.

(* ------------------------------------------------------------------ *)
(** ** Fixed-width integers *)

Module Int.

Definition two32 : Z := 2 ^ 32.

(** Conversion to [unsigned int]. *)
Definition to_uint32 (z : Z) : Z := z mod two32.

(** Conversion to [int] (two's complement, 32 bits). *)
Definition to_int32 (z : Z) : Z := (z + 2 ^ 31) mod two32 - 2 ^ 31.

(** The value [-1] once converted to [unsigned int] for a comparison. *)
Definition uint32_minus_one : Z := two32 - 1.

(** Little-endian value of a byte buffer (the host is little-endian, as
    the raw struct overlay of the source assumes). *)
Fixpoint le_decode (bs : list byte) : Z :=
  match bs with
  | [] => 0
  | b :: rest => Z.of_N (Byte.to_N b) + 256 * le_decode rest
  end.

(** Field of [w] bytes at byte offset [off] of a buffer. *)
Definition field (off w : nat) (buf : list byte) : Z :=
  le_decode (firstn w (skipn off buf)).

End Int.

(* ------------------------------------------------------------------ *)
(** ** The C stream *)

Module LibC.

Record FILE := mkFILE { content : list byte; fpos : Z }.

(** [fread(buf, 1, n, f)]: the bytes obtained (at most [n], fewer at end
    of file) and the stream with its cursor advanced past them.  The
    returned count is the length of the buffer. *)
Definition fread (n : nat) (f : FILE) : list byte * FILE :=
  let got := firstn n (skipn (Z.to_nat (fpos f)) (content f)) in
  (got, mkFILE (content f) (fpos f + Z.of_nat (List.length got))).

(** [fseek(f, off, SEEK_SET)]: the return code (0 on success) and the
    stream.  A negative offset is refused; seeking past the end is
    allowed, the following read then returns nothing. *)
Definition fseek (off : Z) (f : FILE) : Z * FILE :=
  if off <? 0 then (-1, f) else (0, mkFILE (content f) off).

(** [ftell(f)]. *)
Definition ftell (f : FILE) : Z := fpos f.

End LibC.
Import LibC.

(* ------------------------------------------------------------------ *)
(** ** PE structures (manape/pe_structs.h) *)

(** IMAGE_IMPORT_DESCRIPTOR: five 32-bit fields read from the file, and
    the library name resolved from [Name]. *)
Record image_import_descriptor := mk_iid {
  OriginalFirstThunk : Z;
  TimeDateStamp : Z;
  ForwarderChain : Z;
  Name : Z;
  FirstThunk : Z;
  NameStr : string
}.

(** An entry of an IMPORT_LOOKUP_TABLE.  [AddressOfData] is 64 bits wide
    and holds the raw thunk; [ilt_Name] is the field [Name] of the
    source. *)
Record import_lookup_table := mk_ilt {
  AddressOfData : Z;
  Hint : Z;
  ilt_Name : string
}.

(** [image_library_descriptor]: a descriptor paired with its entries. *)
Definition image_library_descriptor : Type :=
  (image_import_descriptor * list import_lookup_table)%type.

Record image_optional_header := mk_ioh { Magic : Z }.

(** nt::IMAGE_OPTIONAL_HEADER_MAGIC.at("PE32+") *)
Definition IMAGE_OPTIONAL_HEADER_MAGIC_PE32plus : Z := 0x20b.

Definition IMAGE_DIRECTORY_ENTRY_IMPORT : Z := 1.

(** The members of [PE] that the import code reads or writes. *)
Record PE := mk_PE {
  _ioh : option image_optional_header;
  _file_handle : option FILE;
  _imports : list image_library_descriptor;
  _initialized : bool
}.

(** The log sink behind PRINT_ERROR and PRINT_WARNING. *)
Inductive severity := ERROR | WARNING.
Definition log_line : Type := (severity * string)%type.

Definition decode_descriptor (buf : list byte) : image_import_descriptor :=
  mk_iid (Int.field 0 4 buf) (Int.field 4 4 buf) (Int.field 8 4 buf)
         (Int.field 12 4 buf) (Int.field 16 4 buf) EmptyString.

Definition set_NameStr (iid : image_import_descriptor) (s : string)
  : image_import_descriptor :=
  mk_iid (OriginalFirstThunk iid) (TimeDateStamp iid) (ForwarderChain iid)
         (Name iid) (FirstThunk iid) s.

(** The messages of the source. *)
Definition msg_descriptor : string := "Could not read the IMAGE_IMPORT_DESCRIPTOR.".
Definition msg_name : string := "Could not read an import's name.".
Definition msg_reach_ilt : string := "Could not reach an IMPORT_LOOKUP_TABLE.".
Definition msg_read_ilt : string := "Could not read the IMPORT_LOOKUP_TABLE.".
Definition msg_reach_hint : string := "Could not reach the HINT/NAME table.".
Definition msg_read_hint : string := "Could not read a HINT/NAME hint.".

(* ------------------------------------------------------------------ *)
(** ** Collaborators of the import parser *)

(** The services [_parse_imports] calls into and whose code is in other
    translation units: the RVA translator and the directory locator of
    the PE container (they depend on the section table and the data
    directories of the image being parsed), and the two string readers of
    [utils].  [_rva_to_offset] returns 0 for an RVA no section contains;
    [read_string_at_offset] returns its success flag, the string it stored
    in its output parameter and the stream. *)
Class PEServices := {
  _rva_to_offset : Z -> Z;
  _reach_directory : Z -> FILE -> bool * FILE;
  read_string_at_offset : FILE -> Z -> bool * string * FILE;
  read_ascii_string : FILE -> string * FILE
}.

(** boost::regex: construction from a pattern with or without
    [boost::regex::icase], and [boost::regex_match] (the whole subject
    must match). *)
Class RegexEngine := {
  regex : Type;
  boost_regex : string -> bool -> regex;
  regex_match : string -> regex -> bool
}.

(* ------------------------------------------------------------------ *)
(** ** Reference models of the collaborators *)

Module Reference.

(** A section of the Section Map. *)
Record section := mk_section {
  VirtualAddress : Z;
  VirtualSize : Z;
  PointerToRawData : Z
}.

Definition contains (s : section) (rva : Z) : bool :=
  (VirtualAddress s <=? rva) && (rva <? VirtualAddress s + VirtualSize s).

(** Modelled from the spec: [PE::_rva_to_offset] (manape/pe.cpp is not
    part of the sources at hand).  The section whose virtual-address
    range contains the RVA gives file-offset base + (RVA - virtual
    base); 0 when no section contains it. *)
Definition rva_to_offset (sections : list section) (rva : Z) : Z :=
  match find (fun s => contains s rva) sections with
  | Some s => PointerToRawData s + (rva - VirtualAddress s)
  | None => 0
  end.

(** Modelled from the spec: [PE::_reach_directory].  [dirs] is the
    data-directory array as (RVA, size) pairs.  A directory whose RVA
    is 0 is absent; otherwise the RVA is translated, with no fallback,
    and the stream is moved there. *)
Definition reach_directory (sections : list section) (dirs : list (Z * Z))
           (index : Z) (f : FILE) : bool * FILE :=
  match nth_error dirs (Z.to_nat index) with
  | None => (false, f)
  | Some (rva, _) =>
      if rva =? 0 then (false, f)
      else
        let off := rva_to_offset sections rva in
        if off =? 0 then (false, f)
        else let (rc, f') := fseek off f in (rc =? 0, f')
  end.

(** The bytes before the first NUL of a buffer, and how many bytes a
    byte-by-byte reader consumes to get them (the NUL included when
    there is one). *)
Fixpoint cstring (bs : list byte) : list byte * nat :=
  match bs with
  | [] => ([], O)
  | b :: rest =>
      if Byte.eqb b x00 then ([], 1%nat)
      else let (s, n) := cstring rest in (b :: s, S n)
  end.

(** Modelled from the spec: [utils::read_ascii_string] (utils.cpp is not
    part of the sources at hand).  Reads a null-terminated ASCII string
    at the cursor; it returns a bare string, so at end of file it
    returns the characters read so far. *)
Definition ref_read_ascii_string (f : FILE) : string * FILE :=
  let (s, n) := cstring (skipn (Z.to_nat (fpos f)) (content f)) in
  (string_of_list_byte s, mkFILE (content f) (fpos f + Z.of_nat n)).

(** Modelled from the spec: [utils::read_string_at_offset].  A side
    read bracketed by a save and a restore of the cursor; it fails when
    the offset cannot be reached or no character can be read there. *)
Definition ref_read_string_at_offset (f : FILE) (offset : Z)
  : bool * string * FILE :=
  let saved := Int.to_uint32 (ftell f) in
  if saved =? Int.uint32_minus_one then (false, EmptyString, f)
  else
    let (rc, f1) := fseek offset f in
    if negb (rc =? 0) then (false, EmptyString, f1)
    else
      let (s, f2) := ref_read_ascii_string f1 in
      let (rc', f3) := fseek saved f2 in
      ((rc' =? 0) && negb (String.eqb s EmptyString), s, f3).

Definition services (sections : list section) (dirs : list (Z * Z))
  : PEServices :=
  {| _rva_to_offset := rva_to_offset sections;
     _reach_directory := reach_directory sections dirs;
     read_string_at_offset := ref_read_string_at_offset;
     read_ascii_string := ref_read_ascii_string |}.

End Reference.

(** *** A regular-expression engine for the Perl syntax subset
    literal characters, [.], backslash-escaped punctuation, the postfix
    operators [*], [+], [?] and the anchors [^] and [$]. *)
Module PerlRegex.

Inductive atom := Chr (c : ascii) | AnyChar | Bol | Eol.
Inductive quant := One | Star | Plus | Opt.
Definition item : Type := (atom * quant)%type.

Inductive token :=
| TAtom (a : atom) | TStar | TPlus | TOpt | TBad.

Definition is_alnum (c : ascii) : bool :=
  let n := nat_of_ascii c in
  ((48 <=? n) && (n <=? 57) || (65 <=? n) && (n <=? 90)
   || (97 <=? n) && (n <=? 122))%nat.

Definition token_of (c : ascii) : token :=
  match c with
  | "."%char => TAtom AnyChar
  | "^"%char => TAtom Bol
  | "$"%char => TAtom Eol
  | "*"%char => TStar
  | "+"%char => TPlus
  | "?"%char => TOpt
  | "("%char | ")"%char | "["%char | "]"%char
  | "{"%char | "}"%char | "|"%char => TBad
  | _ => TAtom (Chr c)
  end.

(** [esc] tells whether the previous character was a backslash.  An
    escaped alphanumeric is a character class or a back-reference,
    outside the subset. *)
Fixpoint tokenize (esc : bool) (s : string) : list token :=
  match s with
  | EmptyString => if esc then [TBad] else []
  | String c rest =>
      if esc then
        (if is_alnum c then TBad else TAtom (Chr c)) :: tokenize false rest
      else if Ascii.eqb c "\"%char then tokenize true rest
      else token_of c :: tokenize false rest
  end.

Definition quantify (a : atom) (q : quant) (k : option (list item))
  : option (list item) :=
  match a, q with
  | Bol, One | Eol, One => option_map (cons (a, q)) k
  | Bol, _ | Eol, _ => None
  | _, _ => option_map (cons (a, q)) k
  end.

Fixpoint items_of (ts : list token) : option (list item) :=
  match ts with
  | [] => Some []
  | TAtom a :: rest =>
      match rest with
      | TStar :: rest' => quantify a Star (items_of rest')
      | TPlus :: rest' => quantify a Plus (items_of rest')
      | TOpt :: rest' => quantify a Opt (items_of rest')
      | _ => quantify a One (items_of rest)
      end
  | _ => None
  end.

Definition lower (c : ascii) : ascii :=
  let n := nat_of_ascii c in
  if ((65 <=? n) && (n <=? 90))%nat then ascii_of_nat (n + 32) else c.

Definition chr_eq (icase : bool) (a b : ascii) : bool :=
  if icase then Ascii.eqb (lower a) (lower b) else Ascii.eqb a b.

(** Does a one-character atom accept [c]? *)
Definition accepts (icase : bool) (a : atom) (c : ascii) : bool :=
  match a with
  | Chr x => chr_eq icase x c
  | AnyChar => true
  | Bol | Eol => false
  end.

(** Backtracking matcher: [items] must consume all of [s]; [start]
    tells whether the position is the beginning of the subject. *)
Fixpoint match_items (icase : bool) (items : list item) (s : string)
         (start : bool) {struct items} : bool :=
  match items with
  | [] => match s with EmptyString => true | _ => false end
  | (Bol, _) :: rest => start && match_items icase rest s start
  | (Eol, _) :: rest =>
      match s with EmptyString => match_items icase rest s start | _ => false end
  | (a, One) :: rest =>
      match s with
      | String c s' => accepts icase a c && match_items icase rest s' false
      | EmptyString => false
      end
  | (a, Opt) :: rest =>
      match_items icase rest s start
      || match s with
         | String c s' => accepts icase a c && match_items icase rest s' false
         | EmptyString => false
         end
  | (a, Star) :: rest =>
      (fix star (s : string) (start : bool) {struct s} : bool :=
         match_items icase rest s start
         || match s with
            | String c s' => accepts icase a c && star s' false
            | EmptyString => false
            end) s start
  | (a, Plus) :: rest =>
      match s with
      | String c s' =>
          accepts icase a c
          && (fix star (s : string) (start : bool) {struct s} : bool :=
                match_items icase rest s start
                || match s with
                   | String c s' => accepts icase a c && star s' false
                   | EmptyString => false
                   end) s' false
      | EmptyString => false
      end
  end.

Record compiled := mk_compiled { items : option (list item); icase : bool }.

Definition compile (pattern : string) (ic : bool) : compiled :=
  mk_compiled (items_of (tokenize false pattern)) ic.

(** A pattern outside the subset matches nothing. *)
Definition full_match (subject : string) (e : compiled) : bool :=
  match items e with
  | Some its => match_items (icase e) its subject true
  | None => false
  end.

Definition engine : RegexEngine :=
  {| regex := compiled; boost_regex := compile; regex_match := full_match |}.

End PerlRegex.

(* ------------------------------------------------------------------ *)
(** ** PE::_parse_imports *)

(** What the parser works on: the stream, [_imports] and the log. *)
Record pstate := mk_pstate {
  file : FILE;
  imports : list image_library_descriptor;
  out : list log_line
}.

(** How a loop is left: by [break], by a [return] of the enclosing
    function, or because the iteration bound of the model was used up. *)
Inductive flow :=
| Break (s : pstate)
| Return (b : bool) (s : pstate)
| OutOfFuel.

Inductive thunk_flow :=
| ThunkBreak (f : FILE) (entries : list import_lookup_table)
| ThunkReturn (b : bool) (f : FILE) (entries : list import_lookup_table)
              (msg : list log_line)
| ThunkFuel.

(** Every completed iteration of either loop moves the cursor forward over
    at least four bytes of the file, so the length of the file bounds the
    number of iterations. *)
Definition fuel_of (f : FILE) : nat := S (List.length (content f)).

Definition log_error (s : pstate) (f : FILE) (m : string) : pstate :=
  mk_pstate f (imports s) (out s ++ [(ERROR, m)]).

Definition log_warning (s : pstate) (f : FILE) (m : string) : pstate :=
  mk_pstate f (imports s) (out s ++ [(WARNING, m)]).

Section Parser.

Context {services : PEServices}.

(** The offset at which the name of a library is read: the translation
    of its RVA or, when there is none, the RVA itself. *)
Definition name_offset (iid : image_import_descriptor) : Z :=
  let offset := _rva_to_offset (Name iid) in
  if offset =? 0 then Name iid else offset.

(** The first loop: one IMAGE_IMPORT_DESCRIPTOR per iteration. *)
Fixpoint read_descriptors (fuel : nat) (s : pstate) : flow :=
  match fuel with
  | O => OutOfFuel
  | S fuel' =>
      let (buf, f1) := fread 20 (file s) in
      if negb (Nat.eqb (List.length buf) 20) then
        Return true (log_error s f1 msg_descriptor)
      else
        let iid := decode_descriptor buf in
        if (OriginalFirstThunk iid =? 0) && (FirstThunk iid =? 0) then
          Break (mk_pstate f1 (imports s) (out s))
        else
          let offset := name_offset iid in
          let '(ok, str, f2) := read_string_at_offset f1 offset in
          if negb ok then
            if (0 <? List.length (imports s))%nat then
              Break (log_warning s f2 msg_name)
            else
              Return true (log_error s f2 msg_name)
          else
            read_descriptors fuel'
              (mk_pstate f2 (imports s ++ [(set_NameStr iid str, [])]) (out s))
  end.

Definition size_to_read (magic : Z) : nat :=
  if magic =? IMAGE_OPTIONAL_HEADER_MAGIC_PE32plus then 8%nat else 4%nat.

Definition mask (magic : Z) : Z :=
  if Nat.eqb (size_to_read magic) 8 then 0x8000000000000000 else 0x80000000.

(** The inner loop: one IMPORT_LOOKUP_TABLE entry per iteration,
    appended to [entries]. *)
Fixpoint read_lookup_table (fuel : nat) (magic : Z) (f : FILE)
         (entries : list import_lookup_table) : thunk_flow :=
  match fuel with
  | O => ThunkFuel
  | S fuel' =>
      let (buf, f1) := fread (size_to_read magic) f in
      if negb (Nat.eqb (List.length buf) (size_to_read magic)) then
        ThunkReturn true f1 entries [(ERROR, msg_read_ilt)]
      else
        let aod := Int.le_decode buf in
        if aod =? 0 then ThunkBreak f1 entries
        else if Z.land aod (mask magic) =? 0 then
          let table_offset := _rva_to_offset (Z.land aod 0x7FFFFFFF) in
          if table_offset =? 0 then
            ThunkReturn true f1 entries [(ERROR, msg_reach_hint)]
          else
            let saved_offset := Int.to_uint32 (ftell f1) in
            if saved_offset =? Int.uint32_minus_one then
              ThunkReturn true f1 entries [(ERROR, msg_read_hint)]
            else
              let (rc, f2) := fseek table_offset f1 in
              if negb (rc =? 0) then
                ThunkReturn true f2 entries [(ERROR, msg_read_hint)]
              else
                let (hbuf, f3) := fread 2 f2 in
                if negb (Nat.eqb (List.length hbuf) 2) then
                  ThunkReturn true f3 entries [(ERROR, msg_read_hint)]
                else
                  let (name, f4) := read_ascii_string f3 in
                  let (rc', f5) := fseek saved_offset f4 in
                  if negb (rc' =? 0) then ThunkReturn true f5 entries []
                  else
                    read_lookup_table fuel' magic f5
                      (entries ++ [mk_ilt aod (Int.le_decode hbuf) name])
        else
          read_lookup_table fuel' magic f1
            (entries ++ [mk_ilt aod 0 EmptyString])
  end.

(** The RVA of the table to read for a library, as stored in
    [int ilt_offset]. *)
Definition ilt_offset_of (iid : image_import_descriptor) : Z :=
  Int.to_int32
    (if negb (OriginalFirstThunk iid =? 0)
     then _rva_to_offset (OriginalFirstThunk iid)
     else _rva_to_offset (FirstThunk iid)).

(** The second loop, over [_imports]: [done] are the libraries before
    the iterator, [todo] the ones from the iterator on. *)
Fixpoint parse_lookup_tables (magic : Z)
         (done todo : list image_library_descriptor) (f : FILE)
         (log : list log_line) : flow :=
  match todo with
  | [] => Return true (mk_pstate f done log)
  | (iid, entries) :: rest =>
      let ilt_offset := ilt_offset_of iid in
      if ilt_offset =? 0 then
        Return true (mk_pstate f (done ++ todo) (log ++ [(ERROR, msg_reach_ilt)]))
      else
        let (rc, f1) := fseek ilt_offset f in
        if negb (rc =? 0) then
          Return true (mk_pstate f1 (done ++ todo) (log ++ [(ERROR, msg_reach_ilt)]))
        else
          match read_lookup_table (fuel_of f1) magic f1 entries with
          | ThunkFuel => OutOfFuel
          | ThunkReturn b f2 entries' msg =>
              Return b (mk_pstate f2 (done ++ (iid, entries') :: rest) (log ++ msg))
          | ThunkBreak f2 entries' =>
              parse_lookup_tables magic (done ++ [(iid, entries')]) rest f2 log
          end
  end.

(** Both loops, from the state reached once the directory is found. *)
Definition parse_directory (magic : Z) (s : pstate) : flow :=
  match read_descriptors (fuel_of (file s)) s with
  | Break s' => parse_lookup_tables magic [] (imports s') (file s') (out s')
  | other => other
  end.

Definition store (pe : PE) (s : pstate) : PE :=
  mk_PE (_ioh pe) (Some (file s)) (imports s) (_initialized pe).

(** [PE::_parse_imports]: the returned boolean, the object afterwards and
    the lines logged; [None] only if the iteration bound was used up. *)
Definition _parse_imports (pe : PE) : option (bool * PE * list log_line) :=
  match _ioh pe, _file_handle pe with
  | Some ioh, Some f =>
      let (found, f0) := _reach_directory IMAGE_DIRECTORY_ENTRY_IMPORT f in
      if negb found then
        Some (true, store pe (mk_pstate f0 (_imports pe) []), [])
      else
        match parse_directory (Magic ioh) (mk_pstate f0 (_imports pe) []) with
        | Return b s => Some (b, store pe s, out s)
        | Break s => Some (true, store pe s, out s)
        | OutOfFuel => None
        end
  | _, _ => Some (false, pe, [])
  end.

End Parser.

(* ------------------------------------------------------------------ *)
(** ** The query layer *)

Definition decimal (z : Z) : string :=
  NilEmpty.string_of_uint (N.to_uint (Z.to_N z)).

Definition get_imported_dlls (pe : PE) : list string :=
  if negb (_initialized pe) then []
  else map (fun l => NameStr (fst l)) (_imports pe).

(** The text pushed for one entry by [get_imported_functions]. *)
Definition function_label (e : import_lookup_table) : string :=
  if negb (String.eqb (ilt_Name e) EmptyString) then ilt_Name e
  else ("#" ++ decimal (Z.land (AddressOfData e) 0x7FFF))%string.

Definition get_imported_functions (pe : PE) (dll : string) : list string :=
  if negb (_initialized pe) then []
  else
    match find (fun l => String.eqb (NameStr (fst l)) dll) (_imports pe) with
    | Some ild => map function_label (snd ild)
    | None => []
    end.

Section Search.

Context {engine : RegexEngine}.

(** The default argument of [case_sensitivity] in the declaration of
    [_find_imported_dlls] (manape/pe.h). *)
Variable dll_case_sensitivity_default : bool.

Definition _find_imported_dlls (pe : PE) (name_regexp : string)
           (case_sensitivity : bool) : list image_library_descriptor :=
  if negb (_initialized pe) then []
  else
    let e := if case_sensitivity then boost_regex name_regexp false
             else boost_regex name_regexp true in
    filter (fun l => regex_match (NameStr (fst l)) e) (_imports pe).

(** The names pushed for one matching library. *)
Definition matching_functions (e : regex) (l : image_library_descriptor)
  : list string :=
  map ilt_Name
      (filter (fun i => negb (String.eqb (ilt_Name i) EmptyString)
                        && regex_match (ilt_Name i) e)
              (snd l)).

Definition find_imports (pe : PE) (function_name_regexp dll_name_regexp : string)
           (case_sensitivity : bool) : list string :=
  if negb (_initialized pe) then []
  else
    let matching_dlls :=
      _find_imported_dlls pe dll_name_regexp dll_case_sensitivity_default in
    let e := if case_sensitivity then boost_regex function_name_regexp false
             else boost_regex function_name_regexp true in
    flat_map (matching_functions e) matching_dlls.

(** The search operation as the specification words it, for comparison
    with [find_imports]: the libraries whose name fully matches the
    library pattern, then their functions whose resolved name fully
    matches the function pattern, the flag governing both patterns. *)
Definition search_spec (pe : PE) (function_pattern library_pattern : string)
           (case_sensitive : bool) : list string :=
  if negb (_initialized pe) then []
  else
    flat_map
      (matching_functions (boost_regex function_pattern (negb case_sensitive)))
      (filter (fun l => regex_match (NameStr (fst l))
                          (boost_regex library_pattern (negb case_sensitive)))
              (_imports pe)).

End Search.

(** A descriptor that is not the terminating one. *)
Definition is_sentinel (iid : image_import_descriptor) : bool :=
  (OriginalFirstThunk iid =? 0) && (FirstThunk iid =? 0).

(** The ordinal number of a by-ordinal thunk: the bits below the flag. *)
Definition ordinal_of (magic raw : Z) : Z := raw - mask magic.

(** ** What a parse adds to the import table *)

(** A library as the descriptor loop appends it: not the terminating
    descriptor, and no entry yet. *)
Definition accepted (l : image_library_descriptor) : Prop :=
  is_sentinel (fst l) = false /\ snd l = [].

(** [now] is [before] with entries appended, none of them a zero thunk. *)
Definition grows (before now : list import_lookup_table) : Prop :=
  exists added,
    now = before ++ added /\ Forall (fun e => AddressOfData e <> 0) added.

(** The same library, with its entries grown. *)
Definition grown (l l' : image_library_descriptor) : Prop :=
  fst l' = fst l /\ grows (snd l) (snd l').

(** The lines the lookup-table phase can log. *)
Definition lookup_error (l : log_line) : Prop :=
  l = (ERROR, msg_reach_ilt) \/ l = (ERROR, msg_read_ilt)
  \/ l = (ERROR, msg_reach_hint) \/ l = (ERROR, msg_read_hint).

(** Nothing, or one line of the lookup-table phase. *)
Definition lookup_tail (msg : list log_line) : Prop :=
  msg = [] \/ exists l, msg = [l] /\ lookup_error l.

(** The log of a whole parse that started with an empty log and ended
    with the table [table]: at most one line of the descriptor phase,
    then the lines of the lookup-table phase. *)
Definition parse_log (table : list image_library_descriptor)
           (log : list log_line) : Prop :=
  exists head tail,
    log = head ++ tail /\ lookup_tail tail
    /\ (head = []
        \/ (head = [(WARNING, msg_name)] /\ table <> [])
        \/ (head = [(ERROR, msg_descriptor)] /\ tail = [])
        \/ (head = [(ERROR, msg_name)] /\ tail = [] /\ table = [])).

(** Services that read: they move the cursor of the stream and leave its
    bytes alone, and a successful [read_string_at_offset] puts the cursor
    back where it was. *)
Class ReadOnly (services : PEServices) : Prop := {
  reach_directory_reads :
    forall index f,
      0 <= fpos f ->
      content (snd (_reach_directory index f)) = content f
      /\ 0 <= fpos (snd (_reach_directory index f));
  read_ascii_string_reads :
    forall f, content (snd (read_ascii_string f)) = content f;
  read_string_at_offset_reads :
    forall f offset, content (snd (read_string_at_offset f offset)) = content f;
  read_string_at_offset_restores :
    forall f offset str f',
      0 <= fpos f < Int.uint32_minus_one ->
      read_string_at_offset f offset = (true, str, f') -> f' = f
}.

(** The bytes of the file from the cursor on. *)
Definition remaining (f : FILE) : nat :=
  (List.length (content f) - Z.to_nat (fpos f))%nat.

(** A file whose every offset fits an [unsigned int] other than the one
    that reads as -1. *)
Definition addressable (f : FILE) : Prop :=
  Z.of_nat (List.length (content f)) < Int.uint32_minus_one.

(** The lines the descriptor phase can end with. *)
Inductive descriptor_log (before : list log_line) (s : pstate) : flow -> Prop :=
| dl_sentinel : out s = before -> descriptor_log before s (Break s)
| dl_truncated :
    out s = before ++ [(WARNING, msg_name)] -> imports s <> [] ->
    descriptor_log before s (Break s)
| dl_unreadable :
    out s = before ++ [(ERROR, msg_descriptor)] ->
    descriptor_log before s (Return true s)
| dl_first_name :
    out s = before ++ [(ERROR, msg_name)] -> imports s = [] ->
    descriptor_log before s (Return true s).

(* ------------------------------------------------------------------ *)
(** ** Test images *)

Module Fixtures.

Import Reference.

Fixpoint le_bytes (w : nat) (z : Z) : list byte :=
  match w with
  | O => []
  | S w' =>
      match Byte.of_N (Z.to_N (z mod 256)) with
      | Some b => b :: le_bytes w' (z / 256)
      | None => []
      end
  end.

Definition asciiz (s : string) : list byte := list_byte_of_string s ++ [x00].

Definition descriptor (oft name ft : Z) : list byte :=
  le_bytes 4 oft ++ le_bytes 4 0 ++ le_bytes 4 0 ++ le_bytes 4 name ++ le_bytes 4 ft.

Definition hint_name (hint : Z) (s : string) : list byte :=
  le_bytes 2 hint ++ asciiz s.

(** One section: RVA 0x1000 + k is at file offset 16 + k. *)
Definition sections : list section := [mk_section 0x1000 0x1000 16].
Definition rva (k : Z) : Z := 0x1000 + k.

(** The import directory is at RVA 0x1000. *)
Definition dirs : list (Z * Z) := [(0, 0); (rva 0, 40)].

Definition header : list byte := repeat x00 16.

Definition open (bytes : list byte) (magic : Z) : PE :=
  mk_PE (Some (mk_ioh magic)) (Some (mkFILE bytes 0)) [] true.

Definition PE32 : Z := 0x10b.

(** kernel32.dll importing CreateFileA, CreateMutexW and one function by
    ordinal, the raw thunk of which is [raw]. *)
Definition kernel32_bytes (raw : Z) : list byte :=
  header
  ++ descriptor (rva 40) (rva 85) (rva 40)             (* k = 0 *)
  ++ descriptor 0 0 0                                  (* k = 20 *)
  ++ le_bytes 4 (rva 56) ++ le_bytes 4 (rva 70)        (* k = 40 *)
  ++ le_bytes 4 raw ++ le_bytes 4 0
  ++ hint_name 1 "CreateFileA"                         (* k = 56 *)
  ++ hint_name 2 "CreateMutexW"                        (* k = 70 *)
  ++ asciiz "kernel32.dll".                            (* k = 85 *)

Definition kernel32 (raw : Z) : PE := open (kernel32_bytes raw) PE32.

(** The same table as the parser builds it, for the query layer. *)
Definition kernel32_table (raw : Z) : list image_library_descriptor :=
  [(mk_iid (rva 40) 0 0 (rva 85) (rva 40) "kernel32.dll",
    [mk_ilt (rva 56) 1 "CreateFileA"; mk_ilt (rva 70) 2 "CreateMutexW";
     mk_ilt raw 0 ""])].

(** The directory is there but the file ends inside the first
    descriptor. *)
Definition cut_descriptor : PE :=
  open (header ++ le_bytes 4 (rva 40) ++ le_bytes 4 0) PE32.

(** [cut_descriptor] after the parse: the eight bytes left were read. *)
Definition cut_descriptor_parsed : PE :=
  mk_PE (Some (mk_ioh PE32))
        (Some (mkFILE (header ++ le_bytes 4 (rva 40) ++ le_bytes 4 0) 24)) [] true.

(** The directory starts with the terminating descriptor. *)
Definition no_library : PE := open (header ++ descriptor 0 0 0) PE32.

(** One library, two by-name thunks; the Hint/Name record of the first
    one is the last two bytes of the file: the hint can be read, the
    name cannot. *)
Definition cut_name_bytes : list byte :=
  header
  ++ descriptor (rva 40) (rva 66) (rva 40)             (* k = 0 *)
  ++ descriptor 0 0 0                                  (* k = 20 *)
  ++ le_bytes 4 (rva 72) ++ le_bytes 4 (rva 52)        (* k = 40 *)
  ++ le_bytes 4 0
  ++ hint_name 9 "ExitProcess"                         (* k = 52 *)
  ++ asciiz "a.dll"                                    (* k = 66 *)
  ++ le_bytes 2 5.                                     (* k = 72 *)

Definition cut_name : PE := open cut_name_bytes PE32.

(** Two descriptors; the name RVA of the second one is in no section
    and, taken as a file offset, is past the end of the file. *)
Definition bad_second_name_bytes : list byte :=
  header
  ++ descriptor (rva 60) (rva 68) (rva 60)             (* k = 0 *)
  ++ descriptor (rva 60) 0x9000 (rva 60)               (* k = 20 *)
  ++ descriptor 0 0 0                                  (* k = 40 *)
  ++ le_bytes 4 0x80000003 ++ le_bytes 4 0             (* k = 60 *)
  ++ asciiz "a.dll".                                   (* k = 68 *)

Definition bad_second_name : PE := open bad_second_name_bytes PE32.

(** One descriptor, with the same unreadable name. *)
Definition bad_first_name : PE :=
  open (header ++ descriptor (rva 60) 0x9000 (rva 60) ++ descriptor 0 0 0) PE32.

(** The services of the container for these images. *)
Definition services : PEServices := Reference.services sections dirs.

(** The stream of an image with its cursor at RVA 0x1000 + k. *)
Definition at_rva (bytes : list byte) (k : Z) : FILE := mkFILE bytes (16 + k).

End Fixtures.

(* ------------------------------------------------------------------ *)
(** ** What a parsed table looks like *)

(** The five fields of a descriptor fit 32 bits. *)
Definition descriptor_in_range (iid : image_import_descriptor) : Prop :=
  0 <= OriginalFirstThunk iid < 2 ^ 32
  /\ 0 <= TimeDateStamp iid < 2 ^ 32
  /\ 0 <= ForwarderChain iid < 2 ^ 32
  /\ 0 <= Name iid < 2 ^ 32
  /\ 0 <= FirstThunk iid < 2 ^ 32.

(** The raw thunk of an entry fits the width read for the image and is
    not zero; the hint fits 16 bits. *)
Definition entry_in_range (magic : Z) (e : import_lookup_table) : Prop :=
  0 < AddressOfData e < 256 ^ Z.of_nat (size_to_read magic)
  /\ 0 <= Hint e < 2 ^ 16.

(** An entry whose raw thunk has the ordinal flag set has no name and no
    hint. *)
Definition ordinal_has_no_name (magic : Z) (e : import_lookup_table) : Prop :=
  Z.land (AddressOfData e) (mask magic) <> 0 ->
  Hint e = 0 /\ ilt_Name e = "".

(** A library whose descriptor satisfies [Q] and whose entries satisfy
    [P] for the image's magic. *)
Definition well_formed (P : Z -> import_lookup_table -> Prop)
           (Q : image_import_descriptor -> Prop) (magic : Z)
           (l : image_library_descriptor) : Prop :=
  Q (fst l) /\ Forall (P magic) (snd l).

(** ** Layout of an import directory in a file *)

(** The bytes [bytes] stand at offset [p] of the file. *)
Definition holds_at (file_bytes : list byte) (p : Z) (bytes : list byte) : Prop :=
  0 <= p
  /\ firstn (List.length bytes) (skipn (Z.to_nat p) file_bytes) = bytes.

(** The 20 bytes of a descriptor. *)
Definition encode_descriptor (iid : image_import_descriptor) : list byte :=
  Fixtures.le_bytes 4 (OriginalFirstThunk iid)
  ++ Fixtures.le_bytes 4 (TimeDateStamp iid)
  ++ Fixtures.le_bytes 4 (ForwarderChain iid)
  ++ Fixtures.le_bytes 4 (Name iid)
  ++ Fixtures.le_bytes 4 (FirstThunk iid).

(** A descriptor stream: the descriptors, then a terminating one. *)
Definition encode_directory (iids : list image_import_descriptor)
           (last : image_import_descriptor) : list byte :=
  flat_map encode_descriptor iids ++ encode_descriptor last.

(** A lookup table: the thunks, then a zero thunk. *)
Definition encode_thunks (magic : Z) (thunks : list Z) : list byte :=
  flat_map (Fixtures.le_bytes (size_to_read magic)) thunks
  ++ Fixtures.le_bytes (size_to_read magic) 0.

Section Resolution.

Context {services : PEServices}.

(** The entry the lookup-table loop builds for the thunk [v] in a file
    with the bytes [file_bytes], when it builds one: for a by-name thunk
    the Hint/Name table must translate and hold the two bytes of the
    hint. *)
Definition resolve_thunk (magic : Z) (file_bytes : list byte) (v : Z)
  : option import_lookup_table :=
  if Z.land v (mask magic) =? 0 then
    let table_offset := _rva_to_offset (Z.land v 0x7FFFFFFF) in
    let (hbuf, f3) := fread 2 (mkFILE file_bytes table_offset) in
    if (0 <? table_offset) && Nat.eqb (List.length hbuf) 2 then
      Some (mk_ilt v (Int.le_decode hbuf) (fst (read_ascii_string f3)))
    else None
  else Some (mk_ilt v 0 "").

(** A library laid out in the file: its descriptor, the thunks of its
    lookup table and the entries they resolve to. *)
Definition library_layout : Type :=
  (image_import_descriptor * list Z * list import_lookup_table)%type.

Definition table_at (magic : Z) (file_bytes : list byte) (lib : library_layout)
  : Prop :=
  let '(iid, thunks, entries) := lib in
  0 < ilt_offset_of iid
  /\ holds_at file_bytes (ilt_offset_of iid) (encode_thunks magic thunks)
  /\ Forall (fun v => 0 < v < 256 ^ Z.of_nat (size_to_read magic)) thunks
  /\ Forall2 (fun v e => resolve_thunk magic file_bytes v = Some e) thunks entries.

End Resolution.

(** [Fixtures.kernel32 0x80000007] after the parse. *)
Definition kernel32_parsed : PE :=
  mk_PE (Some (mk_ioh Fixtures.PE32))
        (Some (Fixtures.at_rva (Fixtures.kernel32_bytes 0x80000007) 56))
        (Fixtures.kernel32_table 0x80000007) true.

(** The layout of [Fixtures.kernel32_bytes 0x80000007]: one library, two
    thunks by name and one by ordinal. *)
Definition kernel32_layout : list library_layout :=
  [(mk_iid (Fixtures.rva 40) 0 0 (Fixtures.rva 85) (Fixtures.rva 40) "kernel32.dll",
    [Fixtures.rva 56; Fixtures.rva 70; 0x80000007],
    [mk_ilt (Fixtures.rva 56) 1 "CreateFileA";
     mk_ilt (Fixtures.rva 70) 2 "CreateMutexW";
     mk_ilt 0x80000007 0 ""])].



(* ------------------------------------------------------------------ *)
(** ** output_formatter.cpp and output_formatter.h *)

(** [uint64_to_version_number]: the two halves of a version number, each
    a [uint32], as four 16-bit numbers in decimal separated by dots. *)
Definition uint64_to_version_number (msbytes lsbytes : Z) : string :=
  (decimal (Z.land (Z.shiftr msbytes 16) 0xFFFF) ++ "."
   ++ decimal (Z.land msbytes 0xFFFF) ++ "."
   ++ decimal (Z.land (Z.shiftr lsbytes 16) 0xFFFF) ++ "."
   ++ decimal (Z.land lsbytes 0xFFFF))%string.

(** A string without a dot. *)
Fixpoint dotless (s : string) : Prop :=
  match s with
  | EmptyString => True
  | String c rest => c <> "."%char /\ dotless rest
  end.

Module Output.

Section Formatter.

(** The nodes handed to the formatter ([pNode], a shared pointer to an
    [OutputTreeNode]) and their name.  The class [OutputTreeNode]
    (output_tree_node.h) is not part of the sources: of its members,
    [add_data] and [find_node] use [get_name], [find_node] and [append],
    on the root and on the file nodes, which are LIST nodes. *)
Variable pNode : Type.
Variable get_name : pNode -> string.

(** A child of [_root]: the LIST node [add_data] creates for a file, with
    the path as its name. *)
Record file_node := mk_file_node {
  path : string;
  children : list pNode
}.

(** Modelled from the spec: [OutputTreeNode::find_node] on the root (the
    spec leaves the output tree to its collaborator; the documentation of
    [OutputFormatter::find_node] says that the search stops at the first
    occurrence of the name). *)
Definition root_find_node (root : list file_node) (file_path : string)
  : option file_node :=
  find (fun fn => String.eqb (path fn) file_path) root.

(** Modelled from the spec: [OutputTreeNode::find_node] on a file node,
    with the same first-occurrence search. *)
Definition file_find_node (fn : file_node) (name : string) : option pNode :=
  find (fun n => String.eqb (get_name n) name) (children fn).

(** Modelled from the spec: [OutputTreeNode::append] through the pointer
    [root_find_node] returned: the node is added after the children of
    the first file node of that path, in place. *)
Fixpoint append_in (root : list file_node) (file_path : string) (n : pNode)
  : list file_node :=
  match root with
  | [] => []
  | fn :: rest =>
      if String.eqb (path fn) file_path
      then mk_file_node (path fn) (children fn ++ [n]) :: rest
      else fn :: append_in rest file_path n
  end.

Definition msg_multiple (name : string) : string :=
  ("Multiple nodes using the name " ++ name ++ " in a dictionary.")%string.

(** [OutputFormatter::add_data]: the children of [_root] afterwards and
    the lines logged. *)
Definition add_data (root : list file_node) (n : pNode) (file_path : string)
  : list file_node * list log_line :=
  match root_find_node root file_path with
  | Some fn =>
      (append_in root file_path n,
       match file_find_node fn (get_name n) with
       | Some _ => [(WARNING, msg_multiple (get_name n))]
       | None => []
       end)
  | None => (root ++ [mk_file_node file_path [n]], [])
  end.

(** [OutputFormatter::find_node]. *)
Definition find_node (root : list file_node) (name file_path : string)
  : option pNode :=
  match root_find_node root file_path with
  | None => None
  | Some fn => file_find_node fn name
  end.

(** The nodes stored under all the files. *)
Definition stored (root : list file_node) : nat :=
  list_sum (map (fun fn => List.length (children fn)) root).

End Formatter.

End Output.

(* ------------------------------------------------------------------ *)
(** * Properties *)

(** ** The query layer *)

Section QueryProperties.

Context {engine : RegexEngine}.

Lemma find_imported_dlls_uninitialized pe name_regexp cs :
  _initialized pe = false -> _find_imported_dlls pe name_regexp cs = [].
Proof. intros H. unfold _find_imported_dlls. now rewrite H. Qed.

(** [find_imports] selects the libraries with the default of
    [_find_imported_dlls], whatever its own flag. *)
Lemma find_imports_unfold d pe fp lp cs :
  find_imports d pe fp lp cs =
  flat_map (matching_functions (boost_regex fp (negb cs)))
           (_find_imported_dlls pe lp d).
Proof.
  unfold find_imports, _find_imported_dlls.
  destruct (_initialized pe); cbn; [|reflexivity].
  now destruct cs.
Qed.

(** When the flag happens to equal that default, [find_imports] is the
    search of the specification. *)
Lemma find_imports_flag_is_default d pe fp lp :
  find_imports d pe fp lp d = search_spec pe fp lp d.
Proof.
  rewrite find_imports_unfold. unfold search_spec, _find_imported_dlls.
  destruct (_initialized pe); cbn; [|reflexivity].
  now destruct d.
Qed.

(** C10: every query on a PE object that is not initialized returns the
    empty sequence: [get_imported_dlls], [get_imported_functions],
    [_find_imported_dlls] and [find_imports], whatever the import table
    holds. *)
Theorem C10_uninitialized_queries_are_empty
        (d : bool) (pe : PE) (dll fp lp : string) (cs : bool) :
  _initialized pe = false ->
  get_imported_dlls pe = []
  /\ get_imported_functions pe dll = []
  /\ _find_imported_dlls pe lp cs = []
  /\ find_imports d pe fp lp cs = [].
Proof.
  intros H.
  unfold get_imported_dlls, get_imported_functions, find_imports.
  rewrite (find_imported_dlls_uninitialized pe lp cs H), H.
  repeat split; reflexivity.
Qed.

End QueryProperties.

Lemma C10_uninitialized_witness :
  let pe := mk_PE None None (Fixtures.kernel32_table 0x80000007) false in
  get_imported_dlls pe = []
  /\ get_imported_functions pe "kernel32.dll" = []
  /\ _find_imported_dlls (engine := PerlRegex.engine) pe ".*" false = []
  /\ find_imports (engine := PerlRegex.engine) false pe ".*" ".*" false = [].
Proof.
  exact (C10_uninitialized_queries_are_empty
           (engine := PerlRegex.engine) false
           (mk_PE None None (Fixtures.kernel32_table 0x80000007) false)
           "kernel32.dll" ".*" ".*" false eq_refl).
Defined.

(** C1, the claim as stated fails: [find_imports] does not hand its
    case-sensitivity flag to [_find_imported_dlls]; the library pattern is
    matched with the default of that function.  On the table of
    kernel32.dll with CreateFileA, CreateMutexW and ordinal 7: if the
    default is case-sensitive, the search for "^Create.*" in
    "^KERNEL32\.DLL$" with the flag off finds nothing, where the search
    that applies the flag to both patterns finds both functions; if the
    default is case-insensitive, the same search with the flag on finds
    both functions, where the search that applies the flag to both
    patterns rejects the library. *)
Lemma C1_flag_does_not_reach_the_library_pattern :
  let pe := mk_PE None None (Fixtures.kernel32_table 0x80000007) true in
  let search := find_imports (engine := PerlRegex.engine) in
  let spec := search_spec (engine := PerlRegex.engine) in
  search true pe "^Create.*" "^KERNEL32\.DLL$" false = []
  /\ spec pe "^Create.*" "^KERNEL32\.DLL$" false = ["CreateFileA"; "CreateMutexW"]
  /\ search false pe "^Create.*" "^KERNEL32\.DLL$" true = ["CreateFileA"; "CreateMutexW"]
  /\ spec pe "^Create.*" "^KERNEL32\.DLL$" true = [].
Proof. vm_compute. repeat split; reflexivity. Qed.

(** C1, as the code has it: the flag of [find_imports] governs the
    function pattern only.  The libraries searched are those
    [_find_imported_dlls] selects with its default case sensitivity [d],
    the same for both values of the flag, and a function is returned when
    it has a name and the name fully matches the function pattern under
    the flag.  With a case-insensitive default, kernel32.dll fully matches
    "^KERNEL32\.DLL$" and the search for "^Create.*" with the flag off, in
    the table of kernel32.dll with CreateFileA, CreateMutexW and ordinal
    7, returns CreateFileA and CreateMutexW. *)
Theorem C1_flag_governs_the_function_pattern_only
        (engine : RegexEngine) (d : bool) (pe : PE) (fp lp : string) (cs : bool) :
  find_imports d pe fp lp cs
  = flat_map (matching_functions (boost_regex fp (negb cs)))
             (_find_imported_dlls pe lp d)
  /\ (forall name,
         In name (find_imports d pe fp lp cs) <->
         exists l e,
           In l (_find_imported_dlls pe lp d) /\ In e (snd l)
           /\ ilt_Name e = name /\ name <> ""
           /\ regex_match name (boost_regex fp (negb cs)) = true)
  /\ PerlRegex.full_match "kernel32.dll" (PerlRegex.compile "^KERNEL32\.DLL$" true) = true
  /\ find_imports (engine := PerlRegex.engine) false
                  (mk_PE None None (Fixtures.kernel32_table 0x80000007) true)
                  "^Create.*" "^KERNEL32\.DLL$" false
     = ["CreateFileA"; "CreateMutexW"].
Proof.
  split; [apply find_imports_unfold|]. split; [|split; reflexivity].
  intros name. rewrite find_imports_unfold, in_flat_map. split.
  - intros (l & Hl & Hin). unfold matching_functions in Hin.
    apply in_map_iff in Hin. destruct Hin as (e & He & Hin).
    apply filter_In in Hin. destruct Hin as (Hin & Hok).
    apply andb_prop in Hok. destruct Hok as (Hne & Hm).
    exists l, e. repeat split; auto.
    + intros E. rewrite He, E in Hne. discriminate Hne.
    + now rewrite <- He.
  - intros (l & e & Hl & He & Hname & Hne & Hm). exists l. split; [exact Hl|].
    unfold matching_functions. apply in_map_iff. exists e. split; [exact Hname|].
    apply filter_In. split; [exact He|]. rewrite Hname, Hm.
    destruct (String.eqb_spec name ""); [contradiction | reflexivity].
Qed.

(* ------------------------------------------------------------------ *)
(** ** The stream *)

(** A full read of [n] bytes means that [n] bytes were left. *)
Lemma fread_full n f :
  (0 < n)%nat ->
  List.length (fst (fread n f)) = n ->
  (Z.to_nat (fpos f) + n <= List.length (content f))%nat.
Proof.
  unfold fread; cbn. rewrite length_firstn, length_skipn. lia.
Qed.

Lemma fseek_ok off f : 0 <= off -> fseek off f = (0, mkFILE (content f) off).
Proof. intros H. unfold fseek. destruct (Z.ltb_spec off 0); [lia | reflexivity]. Qed.

Lemma fseek_refused off f : off < 0 -> fseek off f = (-1, f).
Proof. intros H. unfold fseek. destruct (Z.ltb_spec off 0); [reflexivity | lia]. Qed.

Lemma fseek_content off f : content (snd (fseek off f)) = content f.
Proof. unfold fseek. now destruct (off <? 0). Qed.

Lemma to_uint32_small z : 0 <= z < Int.two32 -> Int.to_uint32 z = z.
Proof. intros H. unfold Int.to_uint32. now apply Z.mod_small. Qed.

(* ------------------------------------------------------------------ *)
(** ** One iteration of each loop *)

(** Tactic: unfold one iteration and feed it the facts at hand. *)
Ltac step_with H := rewrite H; cbv beta iota zeta.

Ltac eqb_true H :=
  first [ rewrite (proj2 (Nat.eqb_eq _ _) H)
        | rewrite (proj2 (Z.eqb_eq _ _) H) ]; cbv beta iota zeta.

Ltac eqb_false H :=
  first [ rewrite (proj2 (Nat.eqb_neq _ _) H)
        | rewrite (proj2 (Z.eqb_neq _ _) H) ]; cbv beta iota zeta.

Section ParserSteps.

Context {services : PEServices}.

Lemma read_lookup_table_S fuel magic f entries :
  read_lookup_table (S fuel) magic f entries =
  let (buf, f1) := fread (size_to_read magic) f in
  if negb (Nat.eqb (List.length buf) (size_to_read magic)) then
    ThunkReturn true f1 entries [(ERROR, msg_read_ilt)]
  else
    let aod := Int.le_decode buf in
    if aod =? 0 then ThunkBreak f1 entries
    else if Z.land aod (mask magic) =? 0 then
      let table_offset := _rva_to_offset (Z.land aod 0x7FFFFFFF) in
      if table_offset =? 0 then
        ThunkReturn true f1 entries [(ERROR, msg_reach_hint)]
      else
        let saved_offset := Int.to_uint32 (ftell f1) in
        if saved_offset =? Int.uint32_minus_one then
          ThunkReturn true f1 entries [(ERROR, msg_read_hint)]
        else
          let (rc, f2) := fseek table_offset f1 in
          if negb (rc =? 0) then
            ThunkReturn true f2 entries [(ERROR, msg_read_hint)]
          else
            let (hbuf, f3) := fread 2 f2 in
            if negb (Nat.eqb (List.length hbuf) 2) then
              ThunkReturn true f3 entries [(ERROR, msg_read_hint)]
            else
              let (name, f4) := read_ascii_string f3 in
              let (rc', f5) := fseek saved_offset f4 in
              if negb (rc' =? 0) then ThunkReturn true f5 entries []
              else
                read_lookup_table fuel magic f5
                  (entries ++ [mk_ilt aod (Int.le_decode hbuf) name])
    else
      read_lookup_table fuel magic f1 (entries ++ [mk_ilt aod 0 EmptyString]).
Proof. reflexivity. Qed.

Lemma read_descriptors_S fuel s :
  read_descriptors (S fuel) s =
  let (buf, f1) := fread 20 (file s) in
  if negb (Nat.eqb (List.length buf) 20) then
    Return true (log_error s f1 msg_descriptor)
  else
    let iid := decode_descriptor buf in
    if is_sentinel iid then Break (mk_pstate f1 (imports s) (out s))
    else
      let offset := name_offset iid in
      let '(ok, str, f2) := read_string_at_offset f1 offset in
      if negb ok then
        if (0 <? List.length (imports s))%nat then
          Break (log_warning s f2 msg_name)
        else
          Return true (log_error s f2 msg_name)
      else
        read_descriptors fuel
          (mk_pstate f2 (imports s ++ [(set_NameStr iid str, [])]) (out s)).
Proof. reflexivity. Qed.

(** *** The lookup-table loop *)

Lemma thunk_short_read fuel magic f entries buf f1 :
  fread (size_to_read magic) f = (buf, f1) ->
  List.length buf <> size_to_read magic ->
  read_lookup_table (S fuel) magic f entries
  = ThunkReturn true f1 entries [(ERROR, msg_read_ilt)].
Proof.
  intros Hr Hl. rewrite read_lookup_table_S. step_with Hr.
  eqb_false Hl. reflexivity.
Qed.

Lemma thunk_sentinel fuel magic f entries buf f1 :
  fread (size_to_read magic) f = (buf, f1) ->
  List.length buf = size_to_read magic ->
  Int.le_decode buf = 0 ->
  read_lookup_table (S fuel) magic f entries = ThunkBreak f1 entries.
Proof.
  intros Hr Hl Hz. rewrite read_lookup_table_S. step_with Hr.
  eqb_true Hl. cbn [negb]. eqb_true Hz. reflexivity.
Qed.

Lemma thunk_by_ordinal fuel magic f entries buf f1 :
  fread (size_to_read magic) f = (buf, f1) ->
  List.length buf = size_to_read magic ->
  Z.land (Int.le_decode buf) (mask magic) <> 0 ->
  read_lookup_table (S fuel) magic f entries
  = read_lookup_table fuel magic f1
      (entries ++ [mk_ilt (Int.le_decode buf) 0 EmptyString]).
Proof.
  intros Hr Hl Hm. rewrite read_lookup_table_S. step_with Hr.
  eqb_true Hl. cbn [negb].
  assert (Hnz : Int.le_decode buf <> 0)
    by (intros E; rewrite E, Z.land_0_l in Hm; now apply Hm).
  eqb_false Hnz. eqb_false Hm. reflexivity.
Qed.

Lemma thunk_hint_table_unreachable fuel magic f entries buf f1 :
  fread (size_to_read magic) f = (buf, f1) ->
  List.length buf = size_to_read magic ->
  Int.le_decode buf <> 0 ->
  Z.land (Int.le_decode buf) (mask magic) = 0 ->
  _rva_to_offset (Z.land (Int.le_decode buf) 0x7FFFFFFF) = 0 ->
  read_lookup_table (S fuel) magic f entries
  = ThunkReturn true f1 entries [(ERROR, msg_reach_hint)].
Proof.
  intros Hr Hl Hnz Hm Ht. rewrite read_lookup_table_S. step_with Hr.
  eqb_true Hl. cbn [negb]. eqb_false Hnz. eqb_true Hm. eqb_true Ht.
  reflexivity.
Qed.

Lemma thunk_hint_unreadable fuel magic f entries buf f1 hbuf f3 :
  fread (size_to_read magic) f = (buf, f1) ->
  List.length buf = size_to_read magic ->
  Int.le_decode buf <> 0 ->
  Z.land (Int.le_decode buf) (mask magic) = 0 ->
  0 < _rva_to_offset (Z.land (Int.le_decode buf) 0x7FFFFFFF) ->
  0 <= fpos f1 < Int.uint32_minus_one ->
  fread 2 (mkFILE (content f1)
                  (_rva_to_offset (Z.land (Int.le_decode buf) 0x7FFFFFFF)))
  = (hbuf, f3) ->
  List.length hbuf <> 2%nat ->
  read_lookup_table (S fuel) magic f entries
  = ThunkReturn true f3 entries [(ERROR, msg_read_hint)].
Proof.
  intros Hr Hl Hnz Hm Ht Hp Hh Hl2. rewrite read_lookup_table_S. step_with Hr.
  eqb_true Hl. cbn [negb]. eqb_false Hnz. eqb_true Hm.
  assert (Ht' : _rva_to_offset (Z.land (Int.le_decode buf) 0x7FFFFFFF) <> 0) by lia.
  eqb_false Ht'.
  unfold ftell. rewrite to_uint32_small by (unfold Int.uint32_minus_one in Hp; lia).
  assert (Hs : fpos f1 <> Int.uint32_minus_one) by lia.
  eqb_false Hs.
  rewrite fseek_ok by lia. cbv beta iota zeta. cbn [Z.eqb negb].
  step_with Hh. eqb_false Hl2. reflexivity.
Qed.

Lemma thunk_by_name fuel magic f entries buf f1 hbuf f3 name f4 :
  fread (size_to_read magic) f = (buf, f1) ->
  List.length buf = size_to_read magic ->
  Int.le_decode buf <> 0 ->
  Z.land (Int.le_decode buf) (mask magic) = 0 ->
  0 < _rva_to_offset (Z.land (Int.le_decode buf) 0x7FFFFFFF) ->
  0 <= fpos f1 < Int.uint32_minus_one ->
  fread 2 (mkFILE (content f1)
                  (_rva_to_offset (Z.land (Int.le_decode buf) 0x7FFFFFFF)))
  = (hbuf, f3) ->
  List.length hbuf = 2%nat ->
  read_ascii_string f3 = (name, f4) ->
  read_lookup_table (S fuel) magic f entries
  = read_lookup_table fuel magic (mkFILE (content f4) (fpos f1))
      (entries ++ [mk_ilt (Int.le_decode buf) (Int.le_decode hbuf) name]).
Proof.
  intros Hr Hl Hnz Hm Ht Hp Hh Hl2 Hn. rewrite read_lookup_table_S. step_with Hr.
  eqb_true Hl. cbn [negb]. eqb_false Hnz. eqb_true Hm.
  assert (Ht' : _rva_to_offset (Z.land (Int.le_decode buf) 0x7FFFFFFF) <> 0) by lia.
  eqb_false Ht'.
  unfold ftell. rewrite to_uint32_small by (unfold Int.uint32_minus_one in Hp; lia).
  assert (Hs : fpos f1 <> Int.uint32_minus_one) by lia.
  eqb_false Hs.
  rewrite fseek_ok by lia. cbv beta iota zeta. cbn [Z.eqb negb].
  step_with Hh. eqb_true Hl2. cbn [negb]. step_with Hn.
  rewrite fseek_ok by lia. cbv beta iota zeta. cbn [Z.eqb negb].
  reflexivity.
Qed.


(** *** The descriptor loop *)

Lemma descriptor_short_read fuel s buf f1 :
  fread 20 (file s) = (buf, f1) ->
  List.length buf <> 20%nat ->
  read_descriptors (S fuel) s = Return true (log_error s f1 msg_descriptor).
Proof.
  intros Hr Hl. rewrite read_descriptors_S. step_with Hr.
  eqb_false Hl. reflexivity.
Qed.

Lemma descriptor_sentinel fuel s buf f1 :
  fread 20 (file s) = (buf, f1) ->
  List.length buf = 20%nat ->
  OriginalFirstThunk (decode_descriptor buf) = 0 ->
  FirstThunk (decode_descriptor buf) = 0 ->
  read_descriptors (S fuel) s = Break (mk_pstate f1 (imports s) (out s)).
Proof.
  intros Hr Hl Ho Hf. rewrite read_descriptors_S. step_with Hr.
  eqb_true Hl. cbn [negb]. unfold is_sentinel. rewrite Ho, Hf. reflexivity.
Qed.

Lemma descriptor_name_unreadable fuel s buf f1 str f2 :
  fread 20 (file s) = (buf, f1) ->
  List.length buf = 20%nat ->
  is_sentinel (decode_descriptor buf) = false ->
  read_string_at_offset f1 (name_offset (decode_descriptor buf)) = (false, str, f2) ->
  read_descriptors (S fuel) s
  = if (0 <? List.length (imports s))%nat
    then Break (log_warning s f2 msg_name)
    else Return true (log_error s f2 msg_name).
Proof.
  intros Hr Hl Hs Hn. rewrite read_descriptors_S. step_with Hr.
  eqb_true Hl. cbn [negb]. rewrite Hs.
  step_with Hn. reflexivity.
Qed.

Lemma descriptor_accepted fuel s buf f1 str f2 :
  fread 20 (file s) = (buf, f1) ->
  List.length buf = 20%nat ->
  is_sentinel (decode_descriptor buf) = false ->
  read_string_at_offset f1 (name_offset (decode_descriptor buf)) = (true, str, f2) ->
  read_descriptors (S fuel) s
  = read_descriptors fuel
      (mk_pstate f2 (imports s ++ [(set_NameStr (decode_descriptor buf) str, [])])
                 (out s)).
Proof.
  intros Hr Hl Hs Hn. rewrite read_descriptors_S. step_with Hr.
  eqb_true Hl. cbn [negb]. rewrite Hs.
  step_with Hn. reflexivity.
Qed.

(** *** The loop over the libraries *)

Lemma lookup_table_unreachable magic done iid entries rest f log :
  ilt_offset_of iid <= 0 ->
  parse_lookup_tables magic done ((iid, entries) :: rest) f log
  = Return true (mk_pstate f (done ++ (iid, entries) :: rest)
                           (log ++ [(ERROR, msg_reach_ilt)])).
Proof.
  intros H. cbn [parse_lookup_tables].
  destruct (Z.eqb_spec (ilt_offset_of iid) 0) as [E|E]; [reflexivity|].
  rewrite fseek_refused by lia. reflexivity.
Qed.

Lemma lookup_table_reached magic done iid entries rest f log :
  0 < ilt_offset_of iid ->
  parse_lookup_tables magic done ((iid, entries) :: rest) f log
  = let f1 := mkFILE (content f) (ilt_offset_of iid) in
    match read_lookup_table (fuel_of f1) magic f1 entries with
    | ThunkFuel => OutOfFuel
    | ThunkReturn b f2 entries' msg =>
        Return b (mk_pstate f2 (done ++ (iid, entries') :: rest) (log ++ msg))
    | ThunkBreak f2 entries' =>
        parse_lookup_tables magic (done ++ [(iid, entries')]) rest f2 log
    end.
Proof.
  intros H. cbn [parse_lookup_tables].
  destruct (Z.eqb_spec (ilt_offset_of iid) 0) as [E|E]; [lia|].
  rewrite fseek_ok by lia. reflexivity.
Qed.

End ParserSteps.

(* ------------------------------------------------------------------ *)
(** ** What the loops preserve *)

Lemma grows_refl entries : grows entries entries.
Proof. exists []. split; [now rewrite app_nil_r | constructor]. Qed.

Lemma grows_snoc entries e now :
  AddressOfData e <> 0 -> grows (entries ++ [e]) now -> grows entries now.
Proof.
  intros He (added & -> & Hall). exists (e :: added). split.
  - now rewrite <- app_assoc.
  - now constructor.
Qed.

Lemma grown_refl l : grown l l.
Proof. split; [reflexivity | apply grows_refl]. Qed.

Lemma Forall2_grown_refl ls : Forall2 grown ls ls.
Proof. induction ls; constructor; auto using grown_refl. Qed.

Section ParserInvariants.

Context {services : PEServices}.

(** The lookup-table loop only appends entries, never a zero thunk, and
    when it returns it returns [true]. *)
Lemma read_lookup_table_grows fuel magic :
  forall f entries,
    match read_lookup_table fuel magic f entries with
    | ThunkBreak _ entries' => grows entries entries'
    | ThunkReturn b _ entries' msg =>
        b = true /\ grows entries entries' /\ lookup_tail msg
    | ThunkFuel => True
    end.
Proof.
  induction fuel as [|fuel IH]; intros f entries; [exact I|].
  rewrite read_lookup_table_S.
  destruct (fread (size_to_read magic) f) as [buf f1].
  assert (Hstop : forall m, lookup_error (ERROR, m) ->
            true = true /\ grows entries entries /\ lookup_tail [(ERROR, m)])
    by (intros m Hm; repeat split; [apply grows_refl | right; eauto]).
  destruct (negb _); [apply Hstop; red; tauto|]. cbv zeta.
  destruct (Z.eqb_spec (Int.le_decode buf) 0) as [Hz|Hnz]; [apply grows_refl|].
  destruct (Z.land _ (mask magic) =? 0).
  - destruct (_ =? 0); [apply Hstop; red; tauto|].
    destruct (_ =? Int.uint32_minus_one); [apply Hstop; red; tauto|].
    destruct (fseek _ f1) as [rc f2].
    destruct (negb _); [apply Hstop; red; tauto|].
    destruct (fread 2 f2) as [hbuf f3].
    destruct (negb _); [apply Hstop; red; tauto|].
    destruct (read_ascii_string f3) as [name f4].
    destruct (fseek _ f4) as [rc' f5].
    destruct (negb _).
    + repeat split; [apply grows_refl | now left].
    + specialize (IH f5 (entries ++ [mk_ilt (Int.le_decode buf) (Int.le_decode hbuf) name])).
      destruct (read_lookup_table fuel magic f5 _); auto.
      * eapply grows_snoc; [|eassumption]. assumption.
      * destruct IH as (? & ? & ?). repeat split; auto.
        eapply grows_snoc; [|eassumption]. assumption.
  - specialize (IH f1 (entries ++ [mk_ilt (Int.le_decode buf) 0 EmptyString])).
    destruct (read_lookup_table fuel magic f1 _); auto.
    + eapply grows_snoc; [|eassumption]. assumption.
    + destruct IH as (? & ? & ?). repeat split; auto.
      eapply grows_snoc; [|eassumption]. assumption.
Qed.

(** The descriptor loop only appends libraries, none of them built from
    the terminating descriptor, and logs at most one line, the last. *)
Lemma read_descriptors_appends fuel :
  forall s,
    match read_descriptors fuel s with
    | OutOfFuel => True
    | Break s' as r | Return _ s' as r =>
        (exists added, imports s' = imports s ++ added /\ Forall accepted added)
        /\ descriptor_log (out s) s' r
    end.
Proof.
  induction fuel as [|fuel IH]; intros s; [exact I|].
  rewrite read_descriptors_S.
  destruct (fread 20 (file s)) as [buf f1].
  assert (Hnone : exists added, imports s = imports s ++ added /\ Forall accepted added)
    by (exists []; split; [now rewrite app_nil_r | constructor]).
  destruct (negb _).
  { split; [exact Hnone | now apply dl_unreadable]. }
  cbv zeta.
  destruct (is_sentinel (decode_descriptor buf)) eqn:Hs.
  { split; [exact Hnone | now apply dl_sentinel]. }
  destruct (read_string_at_offset f1 _) as [[ok str] f2].
  destruct ok; cbn [negb].
  - specialize (IH (mk_pstate f2 (imports s ++ [(set_NameStr (decode_descriptor buf) str, [])])
                              (out s))).
    destruct (read_descriptors fuel _) as [s'|b s'|]; [| |exact I];
      destruct IH as ((added & Hi & Ha) & Hl); cbn [imports out] in *;
      (split; [|exact Hl]);
      exists ((set_NameStr (decode_descriptor buf) str, []) :: added);
      (split; [now rewrite Hi, <- app_assoc|]);
      constructor; auto; split; auto.
  - destruct (Nat.ltb_spec 0 (List.length (imports s))) as [Hlen|Hlen].
    + split; [exact Hnone|]. apply dl_truncated; [reflexivity|].
      cbn. intros E. rewrite E in Hlen. cbn in Hlen. lia.
    + split; [exact Hnone|]. apply dl_first_name; [reflexivity|].
      cbn. destruct (imports s); [reflexivity | cbn in Hlen; lia].
Qed.

(** The loop over the libraries keeps every library, in order, growing
    only entry lists; it ends in a [return true]. *)
Lemma parse_lookup_tables_grows magic todo :
  forall done f log,
    match parse_lookup_tables magic done todo f log with
    | OutOfFuel => True
    | Break _ => False
    | Return b s' =>
        b = true
        /\ (exists todo', imports s' = done ++ todo' /\ Forall2 grown todo todo')
        /\ (exists tail, out s' = log ++ tail /\ lookup_tail tail)
    end.
Proof.
  induction todo as [|[iid entries] rest IH]; intros done f log.
  - cbn. repeat split.
    + exists []. split; [now rewrite app_nil_r | constructor].
    + exists []. split; [now rewrite app_nil_r | now left].
  - cbn [parse_lookup_tables].
    assert (Hstop : forall f',
      true = true
      /\ (exists todo', imports (mk_pstate f' (done ++ (iid, entries) :: rest)
                                           (log ++ [(ERROR, msg_reach_ilt)]))
                        = done ++ todo'
                        /\ Forall2 grown ((iid, entries) :: rest) todo')
      /\ (exists tail, out (mk_pstate f' (done ++ (iid, entries) :: rest)
                                      (log ++ [(ERROR, msg_reach_ilt)]))
                       = log ++ tail /\ lookup_tail tail)).
    { intros f'. repeat split.
      - exists ((iid, entries) :: rest). split; [reflexivity | apply Forall2_grown_refl].
      - exists [(ERROR, msg_reach_ilt)]. split; [reflexivity|].
        right. eexists. split; [reflexivity | red; tauto]. }
    destruct (ilt_offset_of iid =? 0); [apply Hstop|].
    destruct (fseek (ilt_offset_of iid) f) as [rc f1].
    destruct (negb (rc =? 0)); [apply Hstop|].
    pose proof (read_lookup_table_grows (fuel_of f1) magic f1 entries) as Hg.
    destruct (read_lookup_table (fuel_of f1) magic f1 entries)
      as [f2 entries'|b f2 entries' msg|]; [| |exact I].
    + specialize (IH (done ++ [(iid, entries')]) f2 log).
      destruct (parse_lookup_tables magic _ rest f2 log) as [|b s'|]; auto.
      destruct IH as (Hb & (todo' & Hi & Hf) & Htail).
      repeat split; auto.
      exists ((iid, entries') :: todo'). split.
      * now rewrite Hi, <- app_assoc.
      * constructor; [split; auto | exact Hf].
    + destruct Hg as (-> & Hgr & Hmsg). repeat split.
      * exists ((iid, entries') :: rest). split; [reflexivity|].
        constructor; [split; auto | apply Forall2_grown_refl].
      * exists msg. split; [reflexivity | exact Hmsg].
Qed.

(** The whole parse.  Without optional header or file handle it returns
    [false] and touches nothing.  Otherwise it returns [true], and the
    table afterwards is the table before followed by the accepted
    libraries, each with its entries grown. *)
Lemma parse_imports_spec pe b pe' log :
  _parse_imports pe = Some (b, pe', log) ->
  match _ioh pe, _file_handle pe with
  | Some _, Some _ =>
      b = true
      /\ _initialized pe' = _initialized pe
      /\ (exists added,
             Forall accepted added
             /\ Forall2 grown (_imports pe ++ added) (_imports pe'))
      /\ parse_log (_imports pe') log
  | _, _ => b = false /\ pe' = pe /\ log = []
  end.
Proof.
  unfold _parse_imports.
  destruct (_ioh pe) as [ioh|]; [|intros [= <- <- <-]; auto].
  destruct (_file_handle pe) as [f|]; [|intros [= <- <- <-]; auto].
  destruct (_reach_directory IMAGE_DIRECTORY_ENTRY_IMPORT f) as [found f0].
  destruct found; cbn [negb].
  2:{ intros [= <- <- <-]. cbn. repeat split.
      - exists []. rewrite app_nil_r. split; [constructor | apply Forall2_grown_refl].
      - exists [], []. repeat split; auto. now left. }
  unfold parse_directory.
  set (s0 := mk_pstate f0 (_imports pe) []).
  pose proof (read_descriptors_appends (fuel_of (file s0)) s0) as Hd.
  destruct (read_descriptors (fuel_of (file s0)) s0) as [s1|b1 s1|].
  - destruct Hd as ((added & Hi & Ha) & Hl). unfold s0 in Hi; cbn [imports] in Hi.
    pose proof (parse_lookup_tables_grows (Magic ioh) (imports s1) [] (file s1) (out s1)) as Hp.
    destruct (parse_lookup_tables (Magic ioh) [] (imports s1) (file s1) (out s1))
      as [|b2 s2|]; [contradiction| |discriminate].
    intros [= <- <- <-].
    destruct Hp as (-> & (todo' & Hi2 & Hf) & (tail & Ho & Ht)).
    cbn [app] in Hi2. cbn [store _imports _initialized].
    repeat split.
    + exists added. split; [exact Ha|]. now rewrite Hi2, <- Hi.
    + exists (out s1), tail. repeat split; auto.
      inversion Hl as [Ho1|Ho1 Hne| |]; subst; cbn [out] in *.
      * left. exact Ho1.
      * right. left. split; [exact Ho1|].
        intros E. apply Hne. rewrite E in Hf. now inversion Hf.
  - destruct Hd as ((added & Hi & Ha) & Hl). unfold s0 in Hi; cbn [imports] in Hi.
    intros [= <- <- <-]. cbn [store _imports _initialized].
    inversion Hl as [| |Ho1|Ho1 He]; subst; cbn [out] in *.
    + repeat split.
      * exists added. split; [exact Ha|]. rewrite Hi. apply Forall2_grown_refl.
      * exists [(ERROR, msg_descriptor)], []. repeat split; auto. now left.
    + repeat split.
      * exists added. split; [exact Ha|]. rewrite Hi. apply Forall2_grown_refl.
      * exists [(ERROR, msg_name)], []. split; [exact Ho1|]. split; [now left|].
        right. right. right. auto.
  - discriminate.
Qed.

End ParserInvariants.

(* ------------------------------------------------------------------ *)
(** ** Termination: the iteration bound is never used up *)

Lemma size_to_read_pos magic : (4 <= size_to_read magic)%nat.
Proof. unfold size_to_read. destruct (magic =? _); lia. Qed.

(** A full read of at least one byte leaves fewer bytes. *)
Lemma fread_consumes n f buf f1 :
  (0 < n)%nat -> 0 <= fpos f ->
  fread n f = (buf, f1) -> List.length buf = n ->
  content f1 = content f
  /\ fpos f1 = fpos f + Z.of_nat n
  /\ (remaining f1 < remaining f)%nat
  /\ Z.of_nat (List.length (content f)) >= fpos f1.
Proof.
  intros Hn Hp Hr Hl.
  pose proof (fread_full n f Hn) as Hfull.
  rewrite Hr in Hfull. cbn [fst] in Hfull. specialize (Hfull Hl).
  unfold fread in Hr. injection Hr as Hb Hf. subst f1. cbn [content fpos].
  rewrite Hb, Hl. unfold remaining. cbn [content fpos].
  repeat split; lia.
Qed.

Section Termination.

Context {services : PEServices} {read_only : ReadOnly services}.

Lemma read_lookup_table_terminates fuel magic :
  forall f entries,
    addressable f -> 0 <= fpos f -> (remaining f < fuel)%nat ->
    match read_lookup_table fuel magic f entries with
    | ThunkFuel => False
    | ThunkBreak f' _ | ThunkReturn _ f' _ _ =>
        content f' = content f /\ 0 <= fpos f'
    end.
Proof.
  induction fuel as [|fuel IH]; intros f entries Ha Hp Hfuel; [lia|].
  rewrite read_lookup_table_S.
  destruct (fread (size_to_read magic) f) as [buf f1] eqn:Hr.
  assert (Hf1 : content f1 = content f /\ 0 <= fpos f1).
  { unfold fread in Hr. injection Hr as _ <-. cbn. split; [reflexivity | lia]. }
  destruct (Nat.eqb_spec (List.length buf) (size_to_read magic)) as [Hl|Hl];
    cbn [negb]; [|exact Hf1].
  cbv zeta.
  destruct (fread_consumes (size_to_read magic) f buf f1
              ltac:(pose proof (size_to_read_pos magic); lia) Hp Hr Hl)
    as (Hc1 & Hp1 & Hrem & Hin).
  assert (Ha1 : addressable f1) by (unfold addressable in *; now rewrite Hc1).
  destruct (Int.le_decode buf =? 0); [exact Hf1|].
  destruct (Z.land _ (mask magic) =? 0).
  - destruct (_ =? 0); [exact Hf1|].
    unfold ftell. rewrite to_uint32_small
      by (unfold addressable, Int.uint32_minus_one in *; lia).
    destruct (_ =? Int.uint32_minus_one); [exact Hf1|].
    destruct (fseek _ f1) as [rc f2] eqn:Hs.
    assert (Hc2 : content f2 = content f1)
      by (rewrite <- (fseek_content (_rva_to_offset (Z.land (Int.le_decode buf) 0x7FFFFFFF)) f1);
          now rewrite Hs).
    destruct (Z.eqb_spec rc 0) as [Hrc|Hrc]; cbn [negb].
    2:{ unfold fseek in Hs. destruct (_ <? 0) in Hs; injection Hs as <- <-;
        [exact Hf1 | congruence]. }
    destruct (fread 2 f2) as [hbuf f3] eqn:Hr2.
    assert (Hc3 : content f3 = content f2 /\ (0 <= fpos f2 -> 0 <= fpos f3)).
    { unfold fread in Hr2. injection Hr2 as _ <-. cbn. split; [reflexivity | lia]. }
    assert (Hp2 : 0 <= fpos f2).
    { unfold fseek in Hs. destruct (Z.ltb_spec (_rva_to_offset (Z.land (Int.le_decode buf) 0x7FFFFFFF)) 0);
        injection Hs as _ <-; cbn; lia. }
    destruct (negb _).
    { split; [destruct Hc3; congruence | now apply Hc3]. }
    destruct (read_ascii_string f3) as [name f4] eqn:Hn.
    assert (Hc4 : content f4 = content f3)
      by (rewrite <- (read_ascii_string_reads f3); now rewrite Hn).
    rewrite fseek_ok by lia. cbn [Z.eqb negb].
    specialize (IH (mkFILE (content f4) (fpos f1))
                   (entries ++ [mk_ilt (Int.le_decode buf) (Int.le_decode hbuf) name])).
    assert (Hc5 : content f4 = content f) by (destruct Hc3; congruence).
    cbn [content fpos] in IH. unfold addressable, remaining in *. cbn [content fpos] in IH.
    rewrite Hc5 in IH. rewrite Hc1 in Hrem.
    specialize (IH Ha ltac:(lia) ltac:(lia)).
    rewrite Hc5. exact IH.
  - specialize (IH f1 (entries ++ [mk_ilt (Int.le_decode buf) 0 EmptyString])
                   Ha1 (proj2 Hf1) ltac:(lia)).
    destruct (read_lookup_table fuel magic f1 _); auto.
    + destruct IH; split; congruence.
    + destruct IH; split; congruence.
Qed.

Lemma read_descriptors_terminates fuel :
  forall s,
    addressable (file s) -> 0 <= fpos (file s) -> (remaining (file s) < fuel)%nat ->
    match read_descriptors fuel s with
    | OutOfFuel => False
    | Break s' | Return _ s' => content (file s') = content (file s)
    end.
Proof.
  induction fuel as [|fuel IH]; intros s Ha Hp Hfuel; [lia|].
  rewrite read_descriptors_S.
  destruct (fread 20 (file s)) as [buf f1] eqn:Hr.
  destruct (Nat.eqb_spec (List.length buf) 20) as [Hl|Hl]; cbn [negb].
  2:{ unfold fread in Hr. now injection Hr as _ <-. }
  cbv zeta.
  destruct (fread_consumes 20 (file s) buf f1 ltac:(lia) Hp Hr Hl)
    as (Hc1 & Hp1 & Hrem & Hin).
  destruct (is_sentinel _); [exact Hc1|].
  destruct (read_string_at_offset f1 _) as [[ok str] f2] eqn:Hn.
  assert (Hc2 : content f2 = content f1).
  { rewrite <- (read_string_at_offset_reads f1 (name_offset (decode_descriptor buf))).
    now rewrite Hn. }
  destruct ok; cbn [negb].
  - apply read_string_at_offset_restores in Hn;
      [|unfold addressable, Int.uint32_minus_one in *; lia].
    subst f2.
    specialize (IH (mk_pstate f1 (imports s ++ [(set_NameStr (decode_descriptor buf) str, [])])
                              (out s))).
    cbn [file] in IH. unfold addressable in *. rewrite Hc1 in IH.
    specialize (IH Ha ltac:(lia) ltac:(lia)).
    destruct (read_descriptors fuel _); [| |contradiction]; cbn [file] in *; congruence.
  - destruct (_ <? _)%nat; cbn; congruence.
Qed.

Lemma parse_lookup_tables_terminates magic todo :
  forall done f log,
    addressable f ->
    match parse_lookup_tables magic done todo f log with
    | OutOfFuel => False
    | _ => True
    end.
Proof.
  induction todo as [|[iid entries] rest IH]; intros done f log Ha; [exact I|].
  cbn [parse_lookup_tables].
  destruct (ilt_offset_of iid =? 0); [exact I|].
  destruct (Z.ltb_spec (ilt_offset_of iid) 0) as [Hneg|Hpos].
  - rewrite fseek_refused by assumption. exact I.
  - rewrite fseek_ok by assumption. cbn [Z.eqb negb].
    set (f1 := mkFILE (content f) (ilt_offset_of iid)).
    pose proof (read_lookup_table_terminates (fuel_of f1) magic f1 entries) as Ht.
    specialize (Ht Ha Hpos ltac:(unfold remaining, fuel_of; lia)).
    destruct (read_lookup_table (fuel_of f1) magic f1 entries)
      as [f2 entries'|b f2 entries' msg|]; [|exact I|contradiction].
    apply IH. unfold addressable in *. destruct Ht as [-> _]. exact Ha.
Qed.

(** [_parse_imports] returns, on every file an [unsigned int] addresses. *)
Theorem parse_imports_total pe :
  (forall f, _file_handle pe = Some f -> addressable f /\ 0 <= fpos f) ->
  exists b pe' log, _parse_imports pe = Some (b, pe', log).
Proof.
  intros Hf. unfold _parse_imports.
  destruct (_ioh pe) as [ioh|]; [|now eauto].
  destruct (_file_handle pe) as [f|]; [|now eauto].
  destruct (Hf f eq_refl) as [Ha Hp].
  destruct (reach_directory_reads IMAGE_DIRECTORY_ENTRY_IMPORT f Hp) as [Hc0 Hp0].
  destruct (_reach_directory IMAGE_DIRECTORY_ENTRY_IMPORT f) as [found f0].
  cbn [snd] in *.
  destruct found; cbn [negb]; [|now eauto].
  unfold parse_directory.
  set (s0 := mk_pstate f0 (_imports pe) []).
  assert (Ha0 : addressable f0) by (unfold addressable in *; now rewrite Hc0).
  pose proof (read_descriptors_terminates (fuel_of (file s0)) s0 Ha0 Hp0
                ltac:(unfold remaining, fuel_of; lia)) as Hd.
  destruct (read_descriptors (fuel_of (file s0)) s0) as [s1|b1 s1|];
    [|now eauto|contradiction].
  pose proof (parse_lookup_tables_terminates (Magic ioh) (imports s1) [] (file s1) (out s1)) as Hl.
  assert (Ha1 : addressable (file s1)) by (unfold addressable in *; now rewrite Hd).
  specialize (Hl Ha1).
  destruct (parse_lookup_tables (Magic ioh) [] (imports s1) (file s1) (out s1));
    [now eauto|now eauto|contradiction].
Qed.

End Termination.

(** The reference services only read. *)
Lemma reference_read_only sections dirs : ReadOnly (Reference.services sections dirs).
Proof.
  constructor; cbn.
  - intros index f Hp. unfold Reference.reach_directory.
    destruct (nth_error dirs (Z.to_nat index)) as [[rva size]|]; [|now split].
    destruct (rva =? 0); [now split|].
    destruct (Reference.rva_to_offset sections rva =? 0); [now split|].
    unfold fseek.
    destruct (Z.ltb_spec (Reference.rva_to_offset sections rva) 0); cbn; split;
      auto; lia.
  - intros f. unfold Reference.ref_read_ascii_string.
    now destruct (Reference.cstring _).
  - intros f offset. unfold Reference.ref_read_string_at_offset.
    destruct (_ =? Int.uint32_minus_one); [reflexivity|].
    unfold fseek at 1. destruct (offset <? 0); cbn [negb Z.eqb]; [reflexivity|].
    unfold Reference.ref_read_ascii_string; cbn [content fpos].
    destruct (Reference.cstring _) as [s n].
    unfold fseek. destruct (_ <? 0); reflexivity.
  - intros f offset str f' Hp. unfold Reference.ref_read_string_at_offset.
    unfold ftell. rewrite to_uint32_small
      by (unfold Int.uint32_minus_one, Int.two32 in *; lia).
    destruct (_ =? Int.uint32_minus_one); [discriminate|].
    unfold fseek at 1. destruct (offset <? 0); cbn [negb Z.eqb]; [discriminate|].
    unfold Reference.ref_read_ascii_string; cbn [content fpos].
    destruct (Reference.cstring _) as [s n].
    rewrite fseek_ok by lia. intros [= _ _ <-]. now destruct f.
Qed.

(** With the reference services, the parse of an image that has its
    optional header and its file returns [true], with a table and a log
    of the expected shape. *)
Corollary reference_parse_returns sections dirs pe ioh f :
  _ioh pe = Some ioh -> _file_handle pe = Some f ->
  addressable f -> 0 <= fpos f ->
  exists pe' log,
    _parse_imports (services := Reference.services sections dirs) pe
    = Some (true, pe', log)
    /\ parse_log (_imports pe') log.
Proof.
  intros Hioh Hfile Ha Hp.
  destruct (parse_imports_total (read_only := reference_read_only sections dirs) pe)
    as (b & pe' & log & Hparse).
  { intros f' Hf'. rewrite Hfile in Hf'. injection Hf' as <-. now split. }
  pose proof (parse_imports_spec pe b pe' log Hparse) as Hspec.
  rewrite Hioh, Hfile in Hspec. destruct Hspec as (-> & _ & _ & Hlog).
  now exists pe', log.
Qed.

(* ------------------------------------------------------------------ *)
(** ** The terminating records *)

Lemma Forall2_grown_descriptors (P : image_import_descriptor -> Prop) ls ls' :
  Forall2 grown ls ls' ->
  Forall (fun l => P (fst l)) ls -> Forall (fun l => P (fst l)) ls'.
Proof.
  induction 1 as [|l l' ls ls' [Hfst _] _ IH]; intros Hall; [constructor|].
  inversion Hall; subst. constructor; [now rewrite Hfst | auto].
Qed.

Lemma Forall2_grown_entries ls ls' :
  Forall2 grown ls ls' ->
  Forall (fun l => Forall (fun e => AddressOfData e <> 0) (snd l)) ls ->
  Forall (fun l => Forall (fun e => AddressOfData e <> 0) (snd l)) ls'.
Proof.
  induction 1 as [|l l' ls ls' [_ (added & Hsnd & Hadded)] _ IH]; intros Hall;
    [constructor|].
  inversion Hall; subst. constructor; [|auto].
  rewrite Hsnd. apply Forall_app. now split.
Qed.

Section Sentinels.

Context {services : PEServices}.

(** No library of the table comes from a terminating descriptor, provided
    none did before the parse. *)
Lemma no_sentinel_library pe b pe' log :
  _parse_imports pe = Some (b, pe', log) ->
  Forall (fun l => is_sentinel (fst l) = false) (_imports pe) ->
  Forall (fun l => is_sentinel (fst l) = false) (_imports pe').
Proof.
  intros Hparse Hbefore. apply parse_imports_spec in Hparse.
  destruct (_ioh pe); [|destruct Hparse as (_ & -> & _); exact Hbefore].
  destruct (_file_handle pe); [|destruct Hparse as (_ & -> & _); exact Hbefore].
  destruct Hparse as (_ & _ & (added & Hacc & Hgrown) & _).
  eapply (Forall2_grown_descriptors (fun d => is_sentinel d = false)); [exact Hgrown|].
  apply Forall_app. split; [exact Hbefore|].
  eapply Forall_impl; [|exact Hacc]. now intros l [H _].
Qed.

(** No entry of the table is a zero thunk, provided none was before the
    parse. *)
Lemma no_sentinel_entry pe b pe' log :
  _parse_imports pe = Some (b, pe', log) ->
  Forall (fun l => Forall (fun e => AddressOfData e <> 0) (snd l)) (_imports pe) ->
  Forall (fun l => Forall (fun e => AddressOfData e <> 0) (snd l)) (_imports pe').
Proof.
  intros Hparse Hbefore. apply parse_imports_spec in Hparse.
  destruct (_ioh pe); [|destruct Hparse as (_ & -> & _); exact Hbefore].
  destruct (_file_handle pe); [|destruct Hparse as (_ & -> & _); exact Hbefore].
  destruct Hparse as (_ & _ & (added & Hacc & Hgrown) & _).
  eapply Forall2_grown_entries; [exact Hgrown|].
  apply Forall_app. split; [exact Hbefore|].
  eapply Forall_impl; [|exact Hacc]. intros l [_ ->]. constructor.
Qed.

(** C6: a descriptor whose OriginalFirstThunk and FirstThunk are both 0
    ends the descriptor scan: the loop is left by [break] with the table
    as it was and nothing logged, the parse goes on with the lookup tables
    of the libraries accepted so far, and after any parse no library of
    the table has such a descriptor (the table is empty when the parse
    starts). *)
Theorem C6_descriptor_sentinel_ends_the_scan
        (fuel : nat) (magic : Z) (s : pstate) (buf : list byte) (f1 : FILE) :
  fread 20 (file s) = (buf, f1) ->
  List.length buf = 20%nat ->
  OriginalFirstThunk (decode_descriptor buf) = 0 ->
  FirstThunk (decode_descriptor buf) = 0 ->
  read_descriptors (S fuel) s = Break (mk_pstate f1 (imports s) (out s))
  /\ (forall s0,
         read_descriptors (fuel_of (file s0)) s0 = read_descriptors (S fuel) s ->
         parse_directory magic s0
         = parse_lookup_tables magic [] (imports s) f1 (out s))
  /\ (forall pe b pe' log,
         _imports pe = [] ->
         _parse_imports pe = Some (b, pe', log) ->
         Forall (fun l => OriginalFirstThunk (fst l) <> 0 \/ FirstThunk (fst l) <> 0)
                (_imports pe')).
Proof.
  intros Hr Hl Ho Hf.
  pose proof (descriptor_sentinel fuel s buf f1 Hr Hl Ho Hf) as Hbreak.
  split; [exact Hbreak|]. split.
  - intros s0 Hreach. unfold parse_directory. now rewrite Hreach, Hbreak.
  - intros pe b pe' log Hempty Hparse.
    eapply Forall_impl; [|eapply no_sentinel_library; [exact Hparse|]].
    + intros l Hs. unfold is_sentinel in Hs.
      apply andb_false_iff in Hs. destruct Hs as [Hs|Hs]; apply Z.eqb_neq in Hs; auto.
    + rewrite Hempty. constructor.
Qed.

(** C7: a thunk whose raw value is 0 ends the entries of its library: the
    loop is left by [break] with the entries as they were, the parse moves
    on to the next library, and after any parse no entry of the table
    holds a zero thunk (the table is empty when the parse starts). *)
Theorem C7_zero_thunk_ends_the_entries
        (fuel : nat) (magic : Z) (f : FILE) (entries : list import_lookup_table)
        (buf : list byte) (f1 : FILE) :
  fread (size_to_read magic) f = (buf, f1) ->
  List.length buf = size_to_read magic ->
  Int.le_decode buf = 0 ->
  read_lookup_table (S fuel) magic f entries = ThunkBreak f1 entries
  /\ (forall done iid rest f0 log,
         0 < ilt_offset_of iid ->
         f = mkFILE (content f0) (ilt_offset_of iid) ->
         parse_lookup_tables magic done ((iid, entries) :: rest) f0 log
         = parse_lookup_tables magic (done ++ [(iid, entries)]) rest f1 log)
  /\ (forall pe b pe' log,
         _imports pe = [] ->
         _parse_imports pe = Some (b, pe', log) ->
         Forall (fun l => Forall (fun e => AddressOfData e <> 0) (snd l))
                (_imports pe')).
Proof.
  intros Hr Hl Hz. split; [|split].
  - exact (thunk_sentinel fuel magic f entries buf f1 Hr Hl Hz).
  - intros done iid rest f0 log Hpos ->.
    rewrite lookup_table_reached by assumption. cbv zeta.
    unfold fuel_of.
    now rewrite (thunk_sentinel _ magic _ entries buf f1 Hr Hl Hz).
  - intros pe b pe' log Hempty Hparse.
    eapply no_sentinel_entry; [exact Hparse|]. rewrite Hempty. constructor.
Qed.

End Sentinels.

Lemma C6_descriptor_sentinel_witness :
  let bytes := Fixtures.kernel32_bytes 0x80000007 in
  let table := [(mk_iid (Fixtures.rva 40) 0 0 (Fixtures.rva 85) (Fixtures.rva 40)
                        "kernel32.dll", [])] in
  read_descriptors (services := Fixtures.services) 1
                   (mk_pstate (Fixtures.at_rva bytes 20) table [])
  = Break (mk_pstate (Fixtures.at_rva bytes 40) table []).
Proof.
  exact (proj1 (C6_descriptor_sentinel_ends_the_scan
                  (services := Fixtures.services) 0 Fixtures.PE32
                  (mk_pstate (Fixtures.at_rva (Fixtures.kernel32_bytes 0x80000007) 20)
                     [(mk_iid (Fixtures.rva 40) 0 0 (Fixtures.rva 85) (Fixtures.rva 40)
                              "kernel32.dll", [])] [])
                  (repeat x00 20)
                  (Fixtures.at_rva (Fixtures.kernel32_bytes 0x80000007) 40)
                  eq_refl eq_refl eq_refl eq_refl)).
Defined.

Lemma C7_zero_thunk_witness :
  let bytes := Fixtures.kernel32_bytes 0x80000007 in
  let entries := [mk_ilt (Fixtures.rva 56) 1 "CreateFileA";
                  mk_ilt (Fixtures.rva 70) 2 "CreateMutexW";
                  mk_ilt 0x80000007 0 ""] in
  read_lookup_table (services := Fixtures.services) 1 Fixtures.PE32
                    (Fixtures.at_rva bytes 52) entries
  = ThunkBreak (Fixtures.at_rva bytes 56) entries.
Proof.
  exact (proj1 (C7_zero_thunk_ends_the_entries
                  (services := Fixtures.services) 0 Fixtures.PE32
                  (Fixtures.at_rva (Fixtures.kernel32_bytes 0x80000007) 52)
                  [mk_ilt (Fixtures.rva 56) 1 "CreateFileA";
                   mk_ilt (Fixtures.rva 70) 2 "CreateMutexW";
                   mk_ilt 0x80000007 0 ""]
                  (repeat x00 4)
                  (Fixtures.at_rva (Fixtures.kernel32_bytes 0x80000007) 56)
                  eq_refl eq_refl eq_refl)).
Defined.

(* ------------------------------------------------------------------ *)
(** ** RVA translation failures *)

Lemma to_int32_0 : Int.to_int32 0 = 0.
Proof. reflexivity. Qed.

Section Translation.

Context {services : PEServices}.

(** The table read for a library is the one at OriginalFirstThunk, or at
    FirstThunk when OriginalFirstThunk is 0. *)
Lemma ilt_offset_of_chosen iid :
  ilt_offset_of iid
  = Int.to_int32 (_rva_to_offset (if OriginalFirstThunk iid =? 0
                                  then FirstThunk iid
                                  else OriginalFirstThunk iid)).
Proof. unfold ilt_offset_of. now destruct (OriginalFirstThunk iid =? 0). Qed.

(** C8: an RVA that no section contains is used as a file offset for the
    name of a library and only there.  (1) When the name RVA of a
    descriptor does not translate, the name is read at the offset equal to
    the RVA, and the library is accepted if a name is read there.  (2)
    When the RVA of the lookup table chosen for a library does not
    translate, the parse returns at once with the error of an unreachable
    IMPORT_LOOKUP_TABLE: nothing is read, the table is left as it is.  (3)
    When the Hint/Name RVA of a by-name thunk does not translate, the
    parse returns at once with the error of an unreachable HINT/NAME
    table and the entry is not appended. *)
Theorem C8_fallback_only_for_the_library_name :
  (forall fuel s buf f1 str f2,
      fread 20 (file s) = (buf, f1) ->
      List.length buf = 20%nat ->
      is_sentinel (decode_descriptor buf) = false ->
      _rva_to_offset (Name (decode_descriptor buf)) = 0 ->
      read_string_at_offset f1 (Name (decode_descriptor buf)) = (true, str, f2) ->
      name_offset (decode_descriptor buf) = Name (decode_descriptor buf)
      /\ read_descriptors (S fuel) s
         = read_descriptors fuel
             (mk_pstate f2
                (imports s ++ [(set_NameStr (decode_descriptor buf) str, [])])
                (out s)))
  /\ (forall magic done iid entries rest f log,
         _rva_to_offset (if OriginalFirstThunk iid =? 0
                         then FirstThunk iid
                         else OriginalFirstThunk iid) = 0 ->
         parse_lookup_tables magic done ((iid, entries) :: rest) f log
         = Return true (mk_pstate f (done ++ (iid, entries) :: rest)
                                  (log ++ [(ERROR, msg_reach_ilt)])))
  /\ (forall fuel magic f entries buf f1,
         fread (size_to_read magic) f = (buf, f1) ->
         List.length buf = size_to_read magic ->
         Int.le_decode buf <> 0 ->
         Z.land (Int.le_decode buf) (mask magic) = 0 ->
         _rva_to_offset (Z.land (Int.le_decode buf) 0x7FFFFFFF) = 0 ->
         read_lookup_table (S fuel) magic f entries
         = ThunkReturn true f1 entries [(ERROR, msg_reach_hint)]).
Proof.
  split; [|split].
  - intros fuel s buf f1 str f2 Hr Hl Hs Ht Hn.
    assert (Hoff : name_offset (decode_descriptor buf) = Name (decode_descriptor buf))
      by (unfold name_offset; now rewrite Ht).
    split; [exact Hoff|].
    apply (descriptor_accepted fuel s buf f1 str f2 Hr Hl Hs).
    now rewrite Hoff.
  - intros magic done iid entries rest f log Ht.
    apply lookup_table_unreachable.
    rewrite ilt_offset_of_chosen, Ht, to_int32_0. lia.
  - intros fuel magic f entries buf f1.
    apply thunk_hint_table_unreachable.
Qed.

End Translation.

Lemma C8_fallback_witness :
  (let s := mk_pstate (Fixtures.at_rva (Fixtures.header ++ Fixtures.descriptor 0x1028 36 0x1028
                                        ++ Fixtures.asciiz "raw.dll") 0) [] [] in
   read_descriptors (services := Fixtures.services) 1 s
   = read_descriptors (services := Fixtures.services) 0
       (mk_pstate (Fixtures.at_rva (content (file s)) 20)
                  [(mk_iid 0x1028 0 0 36 0x1028 "raw.dll", [])] []))
  /\ (let iid := mk_iid 0x9000 0 0 0x1055 0x9000 "kernel32.dll" in
      let f := Fixtures.at_rva (Fixtures.kernel32_bytes 0x80000007) 40 in
      parse_lookup_tables (services := Fixtures.services) Fixtures.PE32 [] [(iid, [])] f []
      = Return true (mk_pstate f [(iid, [])] [(ERROR, msg_reach_ilt)]))
  /\ (let f := mkFILE (Fixtures.le_bytes 4 0x9000) 0 in
      read_lookup_table (services := Fixtures.services) 1 Fixtures.PE32 f []
      = ThunkReturn true (mkFILE (Fixtures.le_bytes 4 0x9000) 4) []
                    [(ERROR, msg_reach_hint)]).
Proof.
  pose proof (C8_fallback_only_for_the_library_name (services := Fixtures.services))
    as (Hname & Hilt & Hhint).
  split; [|split].
  - exact (proj2 (Hname 0%nat
             (mk_pstate (Fixtures.at_rva (Fixtures.header
                                          ++ Fixtures.descriptor 0x1028 36 0x1028
                                          ++ Fixtures.asciiz "raw.dll") 0) [] [])
             (Fixtures.descriptor 0x1028 36 0x1028)
             (Fixtures.at_rva (Fixtures.header ++ Fixtures.descriptor 0x1028 36 0x1028
                               ++ Fixtures.asciiz "raw.dll") 20)
             "raw.dll"
             (Fixtures.at_rva (Fixtures.header ++ Fixtures.descriptor 0x1028 36 0x1028
                               ++ Fixtures.asciiz "raw.dll") 20)
             eq_refl eq_refl eq_refl eq_refl eq_refl)).
  - exact (Hilt Fixtures.PE32 [] (mk_iid 0x9000 0 0 0x1055 0x9000 "kernel32.dll") [] []
                (Fixtures.at_rva (Fixtures.kernel32_bytes 0x80000007) 40) [] eq_refl).
  - exact (Hhint 0%nat Fixtures.PE32 (mkFILE (Fixtures.le_bytes 4 0x9000) 0) []
                 (Fixtures.le_bytes 4 0x9000) (mkFILE (Fixtures.le_bytes 4 0x9000) 4)
                 eq_refl eq_refl ltac:(discriminate) eq_refl eq_refl).
Defined.

(* ------------------------------------------------------------------ *)
(** ** The side trip to the Hint/Name table *)

Section SideTrip.

Context {services : PEServices}.

(** C4, as the code has it: during the side trip of a by-name thunk, a
    short read of the 16-bit hint stops the import parse with the error
    of an unreadable HINT/NAME hint, and the entry is not appended.  The
    read of the name has no failure case: whatever string
    [read_ascii_string] returns, the empty one included, becomes the name
    of the entry, the entry is appended and the loop goes on with the
    next thunk. *)
Theorem C4_hint_failure_is_fatal_name_is_not_checked
        (fuel : nat) (magic : Z) (f : FILE) (entries : list import_lookup_table)
        (buf : list byte) (f1 : FILE) (hbuf : list byte) (f3 : FILE) :
  fread (size_to_read magic) f = (buf, f1) ->
  List.length buf = size_to_read magic ->
  Int.le_decode buf <> 0 ->
  Z.land (Int.le_decode buf) (mask magic) = 0 ->
  0 < _rva_to_offset (Z.land (Int.le_decode buf) 0x7FFFFFFF) ->
  0 <= fpos f1 < Int.uint32_minus_one ->
  fread 2 (mkFILE (content f1)
                  (_rva_to_offset (Z.land (Int.le_decode buf) 0x7FFFFFFF)))
  = (hbuf, f3) ->
  (List.length hbuf <> 2%nat ->
   read_lookup_table (S fuel) magic f entries
   = ThunkReturn true f3 entries [(ERROR, msg_read_hint)])
  /\ (List.length hbuf = 2%nat ->
      forall name f4,
        read_ascii_string f3 = (name, f4) ->
        read_lookup_table (S fuel) magic f entries
        = read_lookup_table fuel magic (mkFILE (content f4) (fpos f1))
            (entries ++ [mk_ilt (Int.le_decode buf) (Int.le_decode hbuf) name])).
Proof.
  intros Hr Hl Hnz Hm Ht Hp Hh. split.
  - intros Hl2.
    exact (thunk_hint_unreadable fuel magic f entries buf f1 hbuf f3
                                 Hr Hl Hnz Hm Ht Hp Hh Hl2).
  - intros Hl2 name f4 Hn.
    exact (thunk_by_name fuel magic f entries buf f1 hbuf f3 name f4
                         Hr Hl Hnz Hm Ht Hp Hh Hl2 Hn).
Qed.

End SideTrip.

Lemma C4_hint_failure_witness :
  let bytes := Fixtures.le_bytes 4 (Fixtures.rva 4) ++ [x05] in
  read_lookup_table (services := Fixtures.services) 1 Fixtures.PE32
                    (Fixtures.at_rva (Fixtures.header ++ bytes) 0) []
  = ThunkReturn true (Fixtures.at_rva (Fixtures.header ++ bytes) 5) []
                [(ERROR, msg_read_hint)].
Proof.
  exact (proj1 (C4_hint_failure_is_fatal_name_is_not_checked
                  (services := Fixtures.services) 0 Fixtures.PE32
                  (Fixtures.at_rva (Fixtures.header ++ Fixtures.le_bytes 4 (Fixtures.rva 4)
                                    ++ [x05]) 0) []
                  (Fixtures.le_bytes 4 (Fixtures.rva 4))
                  (Fixtures.at_rva (Fixtures.header ++ Fixtures.le_bytes 4 (Fixtures.rva 4)
                                    ++ [x05]) 4)
                  [x05]
                  (Fixtures.at_rva (Fixtures.header ++ Fixtures.le_bytes 4 (Fixtures.rva 4)
                                    ++ [x05]) 5)
                  eq_refl eq_refl ltac:(discriminate) eq_refl ltac:(reflexivity)
                  ltac:(vm_compute; split; [discriminate | reflexivity]) eq_refl)
               ltac:(discriminate)).
Defined.

(** C4, the claim as stated fails: in this image the Hint/Name record of
    the first thunk is the last two bytes of the file (the file has 90
    bytes, the record is at offset 88), so the hint is read and the read of
    the name meets the end of the file at once.  The parse neither stops
    nor logs anything: the entry is appended with an empty name and the
    next thunk (ExitProcess) is parsed. *)
Lemma C4_unreadable_name_is_not_fatal :
  List.length Fixtures.cut_name_bytes = 90%nat
  /\ @_rva_to_offset Fixtures.services (Fixtures.rva 72) = 88
  /\ fread 2 (mkFILE Fixtures.cut_name_bytes 88)
     = ([x05; x00], mkFILE Fixtures.cut_name_bytes 90)
  /\ fread 1 (mkFILE Fixtures.cut_name_bytes 90)
     = ([], mkFILE Fixtures.cut_name_bytes 90)
  /\ @read_ascii_string Fixtures.services (mkFILE Fixtures.cut_name_bytes 90)
     = ("", mkFILE Fixtures.cut_name_bytes 90)
  /\ option_map (fun r => (fst (fst r), _imports (snd (fst r)), snd r))
                (_parse_imports (services := Fixtures.services) Fixtures.cut_name)
     = Some (true,
             [(mk_iid (Fixtures.rva 40) 0 0 (Fixtures.rva 66) (Fixtures.rva 40) "a.dll",
               [mk_ilt (Fixtures.rva 72) 5 "";
                mk_ilt (Fixtures.rva 52) 9 "ExitProcess"])],
             []).
Proof. vm_compute. repeat split; reflexivity. Qed.

(* ------------------------------------------------------------------ *)
(** ** Unreadable library names *)

Lemma lookup_tail_not_name tail sev :
  lookup_tail tail -> ~ In (sev, msg_name) tail.
Proof.
  intros [->|(l & -> & Hl)] Hin; [exact Hin|].
  destruct Hin as [E|[]]. subst l.
  unfold lookup_error, msg_name, msg_reach_ilt, msg_read_ilt, msg_reach_hint,
    msg_read_hint in Hl.
  destruct Hl as [E|[E|[E|E]]]; discriminate E.
Qed.

(** What the two lines about a library name say of the table. *)
Lemma parse_log_name table log :
  parse_log table log ->
  (In (WARNING, msg_name) log -> table <> [])
  /\ (In (ERROR, msg_name) log -> table = [] /\ log = [(ERROR, msg_name)]).
Proof.
  intros (head & tail & -> & Htail & Hhead).
  split; intros Hin; apply in_app_or in Hin;
    (destruct Hin as [Hin|Hin]; [|now apply lookup_tail_not_name in Hin]).
  - destruct Hhead as [->|[[-> Hne]|[[-> _]|[-> _]]]]; cbn in Hin;
      try contradiction; destruct Hin as [E|[]];
      try (unfold msg_descriptor, msg_name in E; discriminate E); exact Hne.
  - destruct Hhead as [->|[[-> _]|[[-> _]|[-> [-> ->]]]]]; cbn in Hin;
      try contradiction; destruct Hin as [E|[]];
      try (unfold msg_descriptor, msg_name in E; discriminate E); now split.
Qed.

Section NameFailures.

Context {services : PEServices}.

(** C5: when the name of a descriptor cannot be read.  If a library was
    accepted before, the descriptor loop is left by [break] with the table
    as it is (not empty) and a warning logged, and the parse goes on with
    the lookup tables of these libraries.  If none was, the parse returns
    at once with an error logged and an empty table.  Over a whole parse:
    the warning is only ever logged with a table that is not empty, the
    error only with an empty table and nothing else in the log. *)
Theorem C5_name_failure_truncates_or_is_fatal
        (fuel : nat) (magic : Z) (s : pstate) (buf : list byte) (f1 : FILE)
        (str : string) (f2 : FILE) :
  fread 20 (file s) = (buf, f1) ->
  List.length buf = 20%nat ->
  is_sentinel (decode_descriptor buf) = false ->
  read_string_at_offset f1 (name_offset (decode_descriptor buf)) = (false, str, f2) ->
  (imports s <> [] ->
   read_descriptors (S fuel) s
   = Break (mk_pstate f2 (imports s) (out s ++ [(WARNING, msg_name)]))
   /\ forall s0,
       read_descriptors (fuel_of (file s0)) s0 = read_descriptors (S fuel) s ->
       parse_directory magic s0
       = parse_lookup_tables magic [] (imports s) f2 (out s ++ [(WARNING, msg_name)]))
  /\ (imports s = [] ->
      read_descriptors (S fuel) s
      = Return true (mk_pstate f2 [] (out s ++ [(ERROR, msg_name)]))
      /\ forall s0,
          read_descriptors (fuel_of (file s0)) s0 = read_descriptors (S fuel) s ->
          parse_directory magic s0
          = Return true (mk_pstate f2 [] (out s ++ [(ERROR, msg_name)])))
  /\ (forall pe b pe' log,
         _parse_imports pe = Some (b, pe', log) ->
         (In (WARNING, msg_name) log -> b = true /\ _imports pe' <> [])
         /\ (In (ERROR, msg_name) log ->
             b = true /\ _imports pe' = [] /\ log = [(ERROR, msg_name)])).
Proof.
  intros Hr Hl Hs Hn.
  pose proof (descriptor_name_unreadable fuel s buf f1 str f2 Hr Hl Hs Hn) as Hstep.
  split; [|split].
  - intros Hne.
    destruct (imports s) as [|l ls] eqn:Hi; [contradiction|].
    cbn [List.length Nat.ltb Nat.leb] in Hstep.
    unfold log_warning in Hstep. rewrite Hi in Hstep.
    split; [exact Hstep|].
    intros s0 Hreach. unfold parse_directory. now rewrite Hreach, Hstep.
  - intros Hempty. rewrite Hempty in Hstep.
    cbn [List.length Nat.ltb Nat.leb] in Hstep.
    unfold log_error in Hstep. rewrite Hempty in Hstep.
    split; [exact Hstep|].
    intros s0 Hreach. unfold parse_directory. now rewrite Hreach, Hstep.
  - intros pe b pe' log Hparse. apply parse_imports_spec in Hparse.
    destruct (_ioh pe);
      [|destruct Hparse as (_ & _ & ->); split; intros []].
    destruct (_file_handle pe);
      [|destruct Hparse as (_ & _ & ->); split; intros []].
    destruct Hparse as (-> & _ & _ & Hlog).
    apply parse_log_name in Hlog. destruct Hlog as [Hw He].
    split; intros Hin; [split; auto|].
    destruct (He Hin). auto.
Qed.

End NameFailures.

Lemma C5_name_failure_witness :
  let bytes := Fixtures.bad_second_name_bytes in
  let table := [(mk_iid (Fixtures.rva 60) 0 0 (Fixtures.rva 68) (Fixtures.rva 60) "a.dll",
                 [])] in
  read_descriptors (services := Fixtures.services) 1
                   (mk_pstate (Fixtures.at_rva bytes 20) table [])
  = Break (mk_pstate (Fixtures.at_rva bytes 40) table [(WARNING, msg_name)]).
Proof.
  exact (proj1 (proj1 (C5_name_failure_truncates_or_is_fatal
                  (services := Fixtures.services) 0 Fixtures.PE32
                  (mk_pstate (Fixtures.at_rva Fixtures.bad_second_name_bytes 20)
                     [(mk_iid (Fixtures.rva 60) 0 0 (Fixtures.rva 68) (Fixtures.rva 60)
                              "a.dll", [])] [])
                  (Fixtures.descriptor (Fixtures.rva 60) 0x9000 (Fixtures.rva 60))
                  (Fixtures.at_rva Fixtures.bad_second_name_bytes 40)
                  ""
                  (Fixtures.at_rva Fixtures.bad_second_name_bytes 40)
                  eq_refl eq_refl eq_refl eq_refl)
               ltac:(discriminate))).
Defined.

(** The two cases on whole images: the second descriptor has the
    unreadable name, and the first one. *)
Example name_failure_on_whole_images :
  let seen := option_map (fun r => (fst (fst r), _imports (snd (fst r)), snd r)) in
  seen (_parse_imports (services := Fixtures.services) Fixtures.bad_second_name)
  = Some (true,
          [(mk_iid (Fixtures.rva 60) 0 0 (Fixtures.rva 68) (Fixtures.rva 60) "a.dll",
            [mk_ilt 0x80000003 0 ""])],
          [(WARNING, msg_name)])
  /\ seen (_parse_imports (services := Fixtures.services) Fixtures.bad_first_name)
     = Some (true, [], [(ERROR, msg_name)]).
Proof. vm_compute. split; reflexivity. Qed.

(* ------------------------------------------------------------------ *)
(** ** Fatal conditions *)

(** An error line is the last line of the log. *)
Lemma parse_log_error_last table log m :
  parse_log table log -> In (ERROR, m) log ->
  exists before, log = before ++ [(ERROR, m)].
Proof.
  intros (head & tail & -> & Htail & Hhead) Hin.
  destruct Htail as [->|(l & -> & Hl)].
  - rewrite app_nil_r in *.
    destruct Hhead as [->|[[-> _]|[[-> _]|[-> _]]]]; cbn in Hin;
      try contradiction; destruct Hin as [E|[]]; try discriminate E;
      injection E as <-; now exists [].
  - apply in_app_or in Hin. destruct Hin as [Hin|[<-|[]]].
    + destruct Hhead as [->|[[-> _]|[[-> E]|[-> [E _]]]]]; cbn in Hin;
        try contradiction; try discriminate E.
      destruct Hin as [E|[]]; discriminate E.
    + now exists head.
Qed.

Section FatalConditions.

Context {services : PEServices}.

(** C2, as the code has it: a parse that logged an error returned [true],
    the value a successful parse returns; the error is the last line of
    its log, and the table holds the libraries accepted and the entries
    read until then.  At each fatal condition the function returns at
    once: (1) a short read of a descriptor, (2) a lookup table whose RVA
    does not translate or cannot be reached, (3) a Hint/Name RVA that does
    not translate, (4) a short read of a hint; and (5) a return out of the
    lookup-table loop leaves in the table the libraries before the current
    one, the current one with the entries read so far, and the following
    ones as they are. *)
Theorem C2_fatal_conditions_stop_and_return_true
        (pe : PE) (b : bool) (pe' : PE) (log : list log_line) (m : string) :
  _parse_imports pe = Some (b, pe', log) ->
  In (ERROR, m) log ->
  b = true
  /\ (exists before, log = before ++ [(ERROR, m)])
  /\ (exists added,
         Forall accepted added
         /\ Forall2 grown (_imports pe ++ added) (_imports pe'))
  /\ (forall fuel s buf f1,
         fread 20 (file s) = (buf, f1) ->
         List.length buf <> 20%nat ->
         read_descriptors (S fuel) s
         = Return true (mk_pstate f1 (imports s) (out s ++ [(ERROR, msg_descriptor)])))
  /\ (forall magic done iid entries rest f log0,
         ilt_offset_of iid <= 0 ->
         parse_lookup_tables magic done ((iid, entries) :: rest) f log0
         = Return true (mk_pstate f (done ++ (iid, entries) :: rest)
                                  (log0 ++ [(ERROR, msg_reach_ilt)])))
  /\ (forall fuel magic f entries buf f1,
         fread (size_to_read magic) f = (buf, f1) ->
         List.length buf = size_to_read magic ->
         Int.le_decode buf <> 0 ->
         Z.land (Int.le_decode buf) (mask magic) = 0 ->
         _rva_to_offset (Z.land (Int.le_decode buf) 0x7FFFFFFF) = 0 ->
         read_lookup_table (S fuel) magic f entries
         = ThunkReturn true f1 entries [(ERROR, msg_reach_hint)])
  /\ (forall fuel magic f entries buf f1 hbuf f3,
         fread (size_to_read magic) f = (buf, f1) ->
         List.length buf = size_to_read magic ->
         Int.le_decode buf <> 0 ->
         Z.land (Int.le_decode buf) (mask magic) = 0 ->
         0 < _rva_to_offset (Z.land (Int.le_decode buf) 0x7FFFFFFF) ->
         0 <= fpos f1 < Int.uint32_minus_one ->
         fread 2 (mkFILE (content f1)
                         (_rva_to_offset (Z.land (Int.le_decode buf) 0x7FFFFFFF)))
         = (hbuf, f3) ->
         List.length hbuf <> 2%nat ->
         read_lookup_table (S fuel) magic f entries
         = ThunkReturn true f3 entries [(ERROR, msg_read_hint)])
  /\ (forall magic done iid entries rest f0 log0 r f2 entries' msg,
         0 < ilt_offset_of iid ->
         read_lookup_table (fuel_of (mkFILE (content f0) (ilt_offset_of iid))) magic
                           (mkFILE (content f0) (ilt_offset_of iid)) entries
         = ThunkReturn r f2 entries' msg ->
         parse_lookup_tables magic done ((iid, entries) :: rest) f0 log0
         = Return r (mk_pstate f2 (done ++ (iid, entries') :: rest) (log0 ++ msg))).
Proof.
  intros Hparse Hin.
  pose proof (parse_imports_spec pe b pe' log Hparse) as Hspec.
  destruct (_ioh pe);
    [|destruct Hspec as (_ & _ & ->); destruct Hin].
  destruct (_file_handle pe);
    [|destruct Hspec as (_ & _ & ->); destruct Hin].
  destruct Hspec as (-> & _ & Htable & Hlog).
  split; [reflexivity|].
  split; [exact (parse_log_error_last _ _ _ Hlog Hin)|].
  split; [exact Htable|].
  split; [exact descriptor_short_read|].
  split; [exact lookup_table_unreachable|].
  split; [exact thunk_hint_table_unreachable|].
  split; [exact thunk_hint_unreadable|].
  intros magic done iid entries rest f0 log0 r f2 entries' msg Hpos Hret.
  rewrite lookup_table_reached by assumption. cbv zeta. now rewrite Hret.
Qed.

End FatalConditions.

Lemma C2_fatal_conditions_witness :
  true = true
  /\ (exists before, [(ERROR, msg_descriptor)] = before ++ [(ERROR, msg_descriptor)])
  /\ (exists added,
         Forall accepted added
         /\ Forall2 grown (_imports Fixtures.cut_descriptor ++ added)
                    (_imports Fixtures.cut_descriptor_parsed)).
Proof.
  pose proof (C2_fatal_conditions_stop_and_return_true
                (services := Fixtures.services)
                Fixtures.cut_descriptor true Fixtures.cut_descriptor_parsed
                [(ERROR, msg_descriptor)] msg_descriptor
                eq_refl (or_introl eq_refl)) as (Hb & Hlast & Htable & _).
  exact (conj Hb (conj Hlast Htable)).
Defined.

(** C2, the claim as stated fails: nothing the caller gets back tells a
    fatal condition from a success.  The first image ends inside its
    first descriptor (DescriptorUnreadable), the second one holds the
    terminating descriptor alone; [_parse_imports] returns [true] and an
    empty table for both, and differs only by the line sent to the log. *)
Lemma C2_fatal_parse_returns_like_a_success :
  let parse := _parse_imports (services := Fixtures.services) in
  let returned := option_map (fun r => (fst (fst r), _imports (snd (fst r)))) in
  returned (parse Fixtures.cut_descriptor) = Some (true, [])
  /\ option_map snd (parse Fixtures.cut_descriptor) = Some [(ERROR, msg_descriptor)]
  /\ returned (parse Fixtures.no_library) = Some (true, [])
  /\ option_map snd (parse Fixtures.no_library) = Some [].
Proof. vm_compute. repeat split; reflexivity. Qed.

(* ------------------------------------------------------------------ *)
(** ** Imports by ordinal *)

(** The label of an entry without a name shows the low 15 bits of the raw
    thunk. *)
Lemma ordinal_label raw hint :
  function_label (mk_ilt raw hint "") = ("#" ++ decimal (raw mod 2 ^ 15))%string.
Proof.
  unfold function_label. cbn [ilt_Name AddressOfData String.eqb negb].
  change 0x7FFF with (Z.ones 15). now rewrite Z.land_ones by lia.
Qed.

(** For an ordinal below 2^15 the label is the ordinal. *)
Lemma ordinal_label_below_2_15 magic K hint :
  0 <= K < 2 ^ 15 ->
  function_label (mk_ilt (mask magic + K) hint "") = ("#" ++ decimal K)%string.
Proof.
  intros HK. rewrite ordinal_label. do 2 f_equal.
  unfold mask. destruct (Nat.eqb _ 8).
  - change 0x8000000000000000 with (2 ^ 48 * 2 ^ 15).
    rewrite Z.add_comm, Z.mod_add by lia. now apply Z.mod_small.
  - change 0x80000000 with (2 ^ 16 * 2 ^ 15).
    rewrite Z.add_comm, Z.mod_add by lia. now apply Z.mod_small.
Qed.

(** C3: the label drops bit 15 of the ordinal.  The image imports
    ordinal 0x8000 = 32768 from kernel32.dll (raw thunk 0x80008000 in a
    32-bit image).  The parser stores the thunk as a by-ordinal entry (no
    name), its bits below the flag are 32768, and
    [get_imported_functions] shows it as "#0" where "#32768" is
    expected. *)
Theorem C3_ordinal_label_drops_bit_15 :
  let parsed := _parse_imports (services := Fixtures.services)
                               (Fixtures.kernel32 0x80008000) in
  option_map (fun r => _imports (snd (fst r))) parsed
  = Some (Fixtures.kernel32_table 0x80008000)
  /\ Z.land 0x80008000 (mask Fixtures.PE32) = mask Fixtures.PE32
  /\ ordinal_of Fixtures.PE32 0x80008000 = 32768
  /\ option_map (fun r => get_imported_functions (snd (fst r)) "kernel32.dll") parsed
     = Some ["CreateFileA"; "CreateMutexW"; "#0"]%string.
Proof. vm_compute. repeat split; reflexivity. Qed.

(* ------------------------------------------------------------------ *)
(** ** Widths of the decoded fields *)

Lemma le_decode_bound bs :
  0 <= Int.le_decode bs < 256 ^ Z.of_nat (List.length bs).
Proof.
  induction bs as [|b bs IH]; [cbn; lia|].
  cbn [Int.le_decode List.length]. rewrite Nat2Z.inj_succ, Z.pow_succ_r by lia.
  pose proof (Byte.to_N_bounded b). lia.
Qed.

Lemma field_bound off w buf : 0 <= Int.field off w buf < 256 ^ Z.of_nat w.
Proof.
  unfold Int.field.
  pose proof (le_decode_bound (firstn w (skipn off buf))) as H.
  pose proof (firstn_le_length w (skipn off buf)) as Hl.
  assert (256 ^ Z.of_nat (List.length (firstn w (skipn off buf))) <= 256 ^ Z.of_nat w)
    by (apply Z.pow_le_mono_r; lia).
  lia.
Qed.

Lemma decode_descriptor_in_range buf str :
  descriptor_in_range (set_NameStr (decode_descriptor buf) str).
Proof.
  unfold descriptor_in_range, set_NameStr, decode_descriptor.
  cbn [OriginalFirstThunk TimeDateStamp ForwarderChain Name FirstThunk].
  change (2 ^ 32) with (256 ^ Z.of_nat 4).
  repeat apply conj; apply field_bound.
Qed.

(* ------------------------------------------------------------------ *)
(** ** Properties every appended library and entry has *)

Section Preservation.

Context {services : PEServices}.

Variable P : Z -> import_lookup_table -> Prop.
Variable Q : image_import_descriptor -> Prop.

Hypothesis P_by_name :
  forall magic buf hbuf name,
    List.length buf = size_to_read magic ->
    Int.le_decode buf <> 0 ->
    Z.land (Int.le_decode buf) (mask magic) = 0 ->
    List.length hbuf = 2%nat ->
    P magic (mk_ilt (Int.le_decode buf) (Int.le_decode hbuf) name).

Hypothesis P_by_ordinal :
  forall magic buf,
    List.length buf = size_to_read magic ->
    Z.land (Int.le_decode buf) (mask magic) <> 0 ->
    P magic (mk_ilt (Int.le_decode buf) 0 "").

Hypothesis Q_accepted :
  forall buf str,
    List.length buf = 20%nat ->
    is_sentinel (decode_descriptor buf) = false ->
    Q (set_NameStr (decode_descriptor buf) str).

Lemma read_lookup_table_preserves fuel magic :
  forall f entries,
    Forall (P magic) entries ->
    match read_lookup_table fuel magic f entries with
    | ThunkBreak _ entries' | ThunkReturn _ _ entries' _ => Forall (P magic) entries'
    | ThunkFuel => True
    end.
Proof.
  induction fuel as [|fuel IH]; intros f entries Hall; [exact I|].
  rewrite read_lookup_table_S.
  destruct (fread (size_to_read magic) f) as [buf f1].
  destruct (Nat.eqb_spec (List.length buf) (size_to_read magic)) as [Hl|Hl];
    cbn [negb]; [|exact Hall].
  cbv zeta.
  destruct (Z.eqb_spec (Int.le_decode buf) 0) as [Hz|Hnz]; [exact Hall|].
  destruct (Z.eqb_spec (Z.land (Int.le_decode buf) (mask magic)) 0) as [Hm|Hm].
  - destruct (_ =? 0); [exact Hall|].
    destruct (_ =? Int.uint32_minus_one); [exact Hall|].
    destruct (fseek _ f1) as [rc f2].
    destruct (negb _); [exact Hall|].
    destruct (fread 2 f2) as [hbuf f3].
    destruct (Nat.eqb_spec (List.length hbuf) 2) as [Hl2|Hl2]; cbn [negb];
      [|exact Hall].
    destruct (read_ascii_string f3) as [name f4].
    destruct (fseek _ f4) as [rc' f5].
    destruct (negb _); [exact Hall|].
    apply IH. apply Forall_app. split; [exact Hall|].
    constructor; [|constructor]. now apply P_by_name.
  - apply IH. apply Forall_app. split; [exact Hall|].
    constructor; [|constructor]. now apply P_by_ordinal.
Qed.

Lemma read_descriptors_preserves fuel magic :
  forall s,
    Forall (well_formed P Q magic) (imports s) ->
    match read_descriptors fuel s with
    | Break s' | Return _ s' => Forall (well_formed P Q magic) (imports s')
    | OutOfFuel => True
    end.
Proof.
  induction fuel as [|fuel IH]; intros s Hall; [exact I|].
  rewrite read_descriptors_S.
  destruct (fread 20 (file s)) as [buf f1].
  destruct (Nat.eqb_spec (List.length buf) 20) as [Hl|Hl]; cbn [negb];
    [|exact Hall].
  cbv zeta.
  destruct (is_sentinel (decode_descriptor buf)) eqn:Hs; [exact Hall|].
  destruct (read_string_at_offset f1 _) as [[ok str] f2].
  destruct ok; cbn [negb].
  - apply IH. cbn [imports]. apply Forall_app. split; [exact Hall|].
    constructor; [|constructor]. split; cbn; [now apply Q_accepted | constructor].
  - destruct (_ <? _)%nat; exact Hall.
Qed.

Lemma parse_lookup_tables_preserves magic todo :
  forall done f log,
    Forall (well_formed P Q magic) done ->
    Forall (well_formed P Q magic) todo ->
    match parse_lookup_tables magic done todo f log with
    | Break s' | Return _ s' => Forall (well_formed P Q magic) (imports s')
    | OutOfFuel => True
    end.
Proof.
  induction todo as [|[iid entries] rest IH]; intros done f log Hdone Htodo.
  - exact Hdone.
  - cbn [parse_lookup_tables].
    assert (Hboth : Forall (well_formed P Q magic) (done ++ (iid, entries) :: rest))
      by (apply Forall_app; now split).
    destruct (ilt_offset_of iid =? 0); [exact Hboth|].
    destruct (fseek (ilt_offset_of iid) f) as [rc f1].
    destruct (negb (rc =? 0)); [exact Hboth|].
    inversion Htodo as [|? ? [Hq He] Hrest]; subst. cbn [fst snd] in *.
    pose proof (read_lookup_table_preserves (fuel_of f1) magic f1 entries He) as Hp.
    destruct (read_lookup_table (fuel_of f1) magic f1 entries)
      as [f2 entries'|b f2 entries' msg|]; [| |exact I].
    + apply IH; [|exact Hrest].
      apply Forall_app. split; [exact Hdone|]. constructor; [|constructor].
      now split.
    + cbn [imports]. apply Forall_app. split; [exact Hdone|].
      constructor; [now split | exact Hrest].
Qed.

(** What holds of every library and entry of the table before a parse,
    and of every library and entry the loops append, holds of the table
    after the parse. *)
Lemma parse_imports_preserves pe ioh b pe' log :
  _ioh pe = Some ioh ->
  _parse_imports pe = Some (b, pe', log) ->
  Forall (well_formed P Q (Magic ioh)) (_imports pe) ->
  Forall (well_formed P Q (Magic ioh)) (_imports pe').
Proof.
  intros Hioh Hparse Hall. unfold _parse_imports in Hparse. rewrite Hioh in Hparse.
  destruct (_file_handle pe) as [f|]; [|injection Hparse as _ <- _; exact Hall].
  destruct (_reach_directory IMAGE_DIRECTORY_ENTRY_IMPORT f) as [found f0].
  destruct found; cbn [negb] in Hparse;
    [|injection Hparse as _ <- _; exact Hall].
  unfold parse_directory in Hparse.
  set (s0 := mk_pstate f0 (_imports pe) []) in *.
  pose proof (read_descriptors_preserves (fuel_of (file s0)) (Magic ioh) s0 Hall) as Hd.
  destruct (read_descriptors (fuel_of (file s0)) s0) as [s1|b1 s1|];
    [| |discriminate].
  - pose proof (parse_lookup_tables_preserves (Magic ioh) (imports s1) []
                  (file s1) (out s1) (Forall_nil _) Hd) as Hp.
    destruct (parse_lookup_tables (Magic ioh) [] (imports s1) (file s1) (out s1));
      [| |discriminate]; injection Hparse as _ <- _; exact Hp.
  - injection Hparse as _ <- _. exact Hd.
Qed.

End Preservation.

Section ParsedTable.

Context {services : PEServices}.

(** X1: after a parse, every field of every descriptor of the table fits
    32 bits, every raw thunk is positive and fits the width read for the
    image (4 bytes, or 8 for PE32+: in a 32-bit image the upper half of
    the 64-bit [AddressOfData] is zero), and every hint fits 16 bits,
    provided this held of the table before the parse. *)
Theorem X1_parsed_fields_fit_their_width
        (pe : PE) (ioh : image_optional_header) (b : bool) (pe' : PE)
        (log : list log_line) :
  _ioh pe = Some ioh ->
  _parse_imports pe = Some (b, pe', log) ->
  Forall (fun l => descriptor_in_range (fst l)
                   /\ Forall (entry_in_range (Magic ioh)) (snd l)) (_imports pe) ->
  Forall (fun l => descriptor_in_range (fst l)
                   /\ Forall (entry_in_range (Magic ioh)) (snd l)) (_imports pe').
Proof.
  apply (parse_imports_preserves entry_in_range descriptor_in_range).
  - intros magic buf hbuf name Hl Hnz _ Hl2. split; cbn.
    + pose proof (le_decode_bound buf). rewrite Hl in *. lia.
    + pose proof (le_decode_bound hbuf) as H. rewrite Hl2 in H.
      change (256 ^ Z.of_nat 2) with (2 ^ 16) in H. exact H.
  - intros magic buf Hl Hm. split; cbn; [|lia].
    pose proof (le_decode_bound buf). rewrite Hl in *.
    assert (Int.le_decode buf <> 0)
      by (intros E; rewrite E, Z.land_0_l in Hm; now apply Hm).
    lia.
  - intros buf str _ _. apply decode_descriptor_in_range.
Qed.

(** X2: after a parse, an entry whose raw thunk has the ordinal flag of
    the image's width set has an empty name and a zero hint, so that its
    label is a number and [find_imports] skips it; equivalently, an entry
    with a name comes from a by-name thunk.  This holds of every entry
    the parse appends, and of the others if it held before. *)
Theorem X2_ordinal_entries_have_no_name
        (pe : PE) (ioh : image_optional_header) (b : bool) (pe' : PE)
        (log : list log_line) :
  _ioh pe = Some ioh ->
  _parse_imports pe = Some (b, pe', log) ->
  Forall (fun l => Forall (ordinal_has_no_name (Magic ioh)) (snd l)) (_imports pe) ->
  Forall (fun l => Forall (ordinal_has_no_name (Magic ioh)) (snd l)) (_imports pe')
  /\ (forall l e,
         In l (_imports pe') -> In e (snd l) -> ilt_Name e <> "" ->
         Z.land (AddressOfData e) (mask (Magic ioh)) = 0).
Proof.
  intros Hioh Hparse Hbefore.
  assert (Hafter : Forall (fun l => Forall (ordinal_has_no_name (Magic ioh)) (snd l))
                          (_imports pe')).
  { pose proof (parse_imports_preserves ordinal_has_no_name (fun _ => True)) as H.
    eapply Forall_impl; [|eapply H; eauto].
    - now intros l [_ Hl].
    - intros magic buf hbuf name _ _ Hm _ Hflag. cbn in Hflag. contradiction.
    - intros magic buf _ _ _. now split.
    - eapply Forall_impl; [|exact Hbefore]. now split. }
  split; [exact Hafter|].
  intros l e Hl He Hname.
  rewrite Forall_forall in Hafter. specialize (Hafter l Hl).
  rewrite Forall_forall in Hafter. specialize (Hafter e He).
  destruct (Z.eq_dec (Z.land (AddressOfData e) (mask (Magic ioh))) 0) as [E|E];
    [exact E|].
  destruct (Hafter E) as [_ Hn]. contradiction.
Qed.

End ParsedTable.

Lemma X1_parsed_fields_witness :
  Forall (fun l => descriptor_in_range (fst l)
                   /\ Forall (entry_in_range Fixtures.PE32) (snd l))
         (Fixtures.kernel32_table 0x80000007).
Proof.
  exact (X1_parsed_fields_fit_their_width
           (services := Fixtures.services)
           (Fixtures.kernel32 0x80000007) (mk_ioh Fixtures.PE32) true
           kernel32_parsed [] eq_refl eq_refl (Forall_nil _)).
Defined.

Lemma X2_ordinal_entries_witness :
  Forall (fun l => Forall (ordinal_has_no_name Fixtures.PE32) (snd l))
         (Fixtures.kernel32_table 0x80000007).
Proof.
  exact (proj1 (X2_ordinal_entries_have_no_name
                  (services := Fixtures.services)
                  (Fixtures.kernel32 0x80000007) (mk_ioh Fixtures.PE32) true
                  kernel32_parsed [] eq_refl eq_refl (Forall_nil _))).
Defined.

(* ------------------------------------------------------------------ *)
(** ** The file bounds the table *)

Lemma Forall2_grown_same_length ls ls' :
  Forall2 grown ls ls' -> List.length ls' = List.length ls.
Proof. induction 1; cbn; congruence. Qed.

Section Counting.

Context {services : PEServices} {read_only : ReadOnly services}.

(** Every entry appended by the lookup-table loop took [size_to_read]
    bytes of what was left of the file. *)
Lemma read_lookup_table_count fuel magic :
  forall f entries,
    addressable f -> 0 <= fpos f ->
    match read_lookup_table fuel magic f entries with
    | ThunkBreak _ entries' | ThunkReturn _ _ entries' _ =>
        (size_to_read magic * List.length entries'
         <= size_to_read magic * List.length entries + remaining f)%nat
    | ThunkFuel => True
    end.
Proof.
  induction fuel as [|fuel IH]; intros f entries Ha Hp; [exact I|].
  rewrite read_lookup_table_S.
  destruct (fread (size_to_read magic) f) as [buf f1] eqn:Hr.
  destruct (Nat.eqb_spec (List.length buf) (size_to_read magic)) as [Hl|Hl];
    cbn [negb]; [|lia].
  cbv zeta.
  pose proof (size_to_read_pos magic) as Hsize.
  destruct (fread_consumes (size_to_read magic) f buf f1 ltac:(lia) Hp Hr Hl)
    as (Hc1 & Hp1 & Hrem & Hin).
  assert (Hrem1 : (remaining f1 + size_to_read magic = remaining f)%nat)
    by (unfold remaining in *; rewrite Hc1, Hp1; lia).
  assert (Ha1 : addressable f1) by (unfold addressable in *; now rewrite Hc1).
  destruct (Int.le_decode buf =? 0); [lia|].
  destruct (Z.land _ (mask magic) =? 0).
  - destruct (_ =? 0); [lia|].
    unfold ftell. rewrite to_uint32_small
      by (unfold addressable, Int.uint32_minus_one in *; lia).
    destruct (_ =? Int.uint32_minus_one); [lia|].
    destruct (fseek _ f1) as [rc f2] eqn:Hs.
    assert (Hc2 : content f2 = content f1)
      by (rewrite <- (fseek_content (_rva_to_offset (Z.land (Int.le_decode buf) 0x7FFFFFFF)) f1);
          now rewrite Hs).
    destruct (negb (rc =? 0)); [lia|].
    destruct (fread 2 f2) as [hbuf f3] eqn:Hr2.
    assert (Hc3 : content f3 = content f2)
      by (unfold fread in Hr2; now injection Hr2 as _ <-).
    destruct (negb _); [lia|].
    destruct (read_ascii_string f3) as [name f4] eqn:Hn.
    assert (Hc4 : content f4 = content f1).
    { rewrite <- Hc2, <- Hc3, <- (read_ascii_string_reads f3). now rewrite Hn. }
    rewrite fseek_ok by lia. cbn [Z.eqb negb].
    specialize (IH (mkFILE (content f4) (fpos f1))
                   (entries ++ [mk_ilt (Int.le_decode buf) (Int.le_decode hbuf) name])).
    assert (Hsame : remaining (mkFILE (content f4) (fpos f1)) = remaining f1)
      by (unfold remaining; cbn [content fpos]; now rewrite Hc4).
    rewrite Hsame in IH.
    specialize (IH ltac:(unfold addressable in *; cbn [content]; now rewrite Hc4)
                   ltac:(cbn [fpos]; lia)).
    destruct (read_lookup_table fuel magic _ _); auto;
      rewrite length_app in IH; cbn [List.length] in IH; lia.
  - specialize (IH f1 (entries ++ [mk_ilt (Int.le_decode buf) 0 EmptyString])
                   Ha1 ltac:(lia)).
    destruct (read_lookup_table fuel magic f1 _); auto;
      rewrite length_app in IH; cbn [List.length] in IH; lia.
Qed.

(** Every library appended by the descriptor loop took 20 bytes of what
    was left of the file. *)
Lemma read_descriptors_count fuel :
  forall s,
    addressable (file s) -> 0 <= fpos (file s) ->
    match read_descriptors fuel s with
    | Break s' | Return _ s' =>
        (20 * List.length (imports s')
         <= 20 * List.length (imports s) + remaining (file s))%nat
    | OutOfFuel => True
    end.
Proof.
  induction fuel as [|fuel IH]; intros s Ha Hp; [exact I|].
  rewrite read_descriptors_S.
  destruct (fread 20 (file s)) as [buf f1] eqn:Hr.
  destruct (Nat.eqb_spec (List.length buf) 20) as [Hl|Hl]; cbn [negb];
    [|cbn; lia].
  cbv zeta.
  destruct (fread_consumes 20 (file s) buf f1 ltac:(lia) Hp Hr Hl)
    as (Hc1 & Hp1 & Hrem & Hin).
  assert (Hrem1 : (remaining f1 + 20 = remaining (file s))%nat)
    by (unfold remaining in *; rewrite Hc1, Hp1; lia).
  destruct (is_sentinel _); [cbn; lia|].
  destruct (read_string_at_offset f1 _) as [[ok str] f2] eqn:Hn.
  destruct ok; cbn [negb].
  - apply read_string_at_offset_restores in Hn;
      [|unfold addressable, Int.uint32_minus_one in *; lia].
    subst f2.
    specialize (IH (mk_pstate f1 (imports s ++ [(set_NameStr (decode_descriptor buf) str, [])])
                              (out s))).
    cbn [file imports] in IH.
    specialize (IH ltac:(unfold addressable in *; now rewrite Hc1) ltac:(lia)).
    destruct (read_descriptors fuel _); auto;
      rewrite length_app in IH; cbn [List.length] in IH; lia.
  - destruct (_ <? _)%nat; cbn; lia.
Qed.

Lemma parse_lookup_tables_count magic (bound : nat)
      (todo : list image_library_descriptor) :
  forall (done : list image_library_descriptor) f log,
    addressable f -> List.length (content f) = bound ->
    Forall (fun l => snd l = []) todo ->
    Forall (fun l => (size_to_read magic * List.length (snd l) <= bound)%nat) done ->
    match parse_lookup_tables magic done todo f log with
    | Break s' | Return _ s' =>
        Forall (fun l => (size_to_read magic * List.length (snd l) <= bound)%nat)
               (imports s')
    | OutOfFuel => True
    end.
Proof.
  induction todo as [|[iid entries] rest IH]; intros done f log Ha Hlen Htodo Hdone.
  - exact Hdone.
  - cbn [parse_lookup_tables].
    assert (Hempty : Forall (fun l : image_library_descriptor =>
                       (size_to_read magic * List.length (snd l) <= bound)%nat)
                            ((iid, entries) :: rest)).
    { eapply Forall_impl; [|exact Htodo]. intros l ->. cbn. lia. }
    assert (Hboth : Forall (fun l : image_library_descriptor =>
                       (size_to_read magic * List.length (snd l) <= bound)%nat)
                           (done ++ (iid, entries) :: rest))
      by (apply Forall_app; now split).
    destruct (ilt_offset_of iid =? 0); [exact Hboth|].
    destruct (Z.ltb_spec (ilt_offset_of iid) 0) as [Hneg|Hpos].
    { rewrite fseek_refused by assumption. exact Hboth. }
    rewrite fseek_ok by assumption. cbn [Z.eqb negb].
    set (f1 := mkFILE (content f) (ilt_offset_of iid)).
    inversion Htodo as [|? ? He Hrest]; subst. cbn [snd] in He. subst entries.
    pose proof (read_lookup_table_count (fuel_of f1) magic f1 [] Ha Hpos) as Hc.
    pose proof (read_lookup_table_terminates (fuel_of f1) magic f1 [] Ha Hpos
                  ltac:(unfold remaining, fuel_of; lia)) as Ht.
    assert (Hrem : (remaining f1 <= List.length (content f))%nat)
      by (unfold remaining, f1; cbn [content]; lia).
    inversion Hempty as [|? ? _ Hrest']; subst.
    destruct (read_lookup_table (fuel_of f1) magic f1 [])
      as [f2 entries'|b f2 entries' msg|]; [| |exact I]; cbn [List.length] in Hc.
    + destruct Ht as [Hc2 _]. apply IH; auto.
      * unfold addressable in *. now rewrite Hc2.
      * now rewrite Hc2.
      * apply Forall_app. split; [exact Hdone|]. constructor; [cbn; lia|constructor].
    + cbn [imports]. apply Forall_app. split; [exact Hdone|].
      constructor; [cbn; lia | exact Hrest'].
Qed.

(** X3: the size of the file bounds what a parse can put in an empty
    table: 20 bytes of the file for every library, and for every library
    [size_to_read] bytes of the file for every entry.  The services are
    read-only and the file is addressable (below 2^32 - 1 bytes). *)
Theorem X3_file_size_bounds_the_table
        (pe : PE) (ioh : image_optional_header) (f : FILE) (b : bool) (pe' : PE)
        (log : list log_line) :
  _ioh pe = Some ioh -> _file_handle pe = Some f ->
  addressable f -> 0 <= fpos f ->
  _imports pe = [] ->
  _parse_imports pe = Some (b, pe', log) ->
  (20 * List.length (_imports pe') <= List.length (content f))%nat
  /\ Forall (fun l => (size_to_read (Magic ioh) * List.length (snd l)
                       <= List.length (content f))%nat)
            (_imports pe').
Proof.
  intros Hioh Hfile Ha Hp Hempty Hparse.
  unfold _parse_imports in Hparse. rewrite Hioh, Hfile, Hempty in Hparse.
  destruct (reach_directory_reads IMAGE_DIRECTORY_ENTRY_IMPORT f Hp) as [Hc0 Hp0].
  destruct (_reach_directory IMAGE_DIRECTORY_ENTRY_IMPORT f) as [found f0].
  cbn [snd] in *.
  destruct found; cbn [negb] in Hparse.
  2:{ injection Hparse as _ <- _. cbn. split; [lia | constructor]. }
  unfold parse_directory in Hparse.
  set (s0 := mk_pstate f0 [] []) in *.
  assert (Ha0 : addressable f0) by (unfold addressable in *; now rewrite Hc0).
  pose proof (read_descriptors_count (fuel_of (file s0)) s0 Ha0 Hp0) as Hcount.
  pose proof (read_descriptors_terminates (fuel_of (file s0)) s0 Ha0 Hp0
                ltac:(unfold remaining, fuel_of; lia)) as Hterm.
  pose proof (read_descriptors_appends (fuel_of (file s0)) s0) as Happ.
  assert (Hrem : (remaining (file s0) <= List.length (content f))%nat)
    by (unfold remaining, s0; cbn [file]; rewrite Hc0; lia).
  subst s0. cbn [file imports] in *.
  destruct (read_descriptors (fuel_of f0) (mk_pstate f0 [] [])) as [s1|b1 s1|];
    [| |discriminate]; cbn [List.length] in Hcount;
    destruct Happ as ((added & Hi & Hacc) & _); cbn [app] in Hi.
  - pose proof (parse_lookup_tables_count (Magic ioh) (List.length (content f))
                  (imports s1) [] (file s1) (out s1)) as Hentries.
    pose proof (parse_lookup_tables_grows (Magic ioh) (imports s1) []
                  (file s1) (out s1)) as Hgrows.
    specialize (Hentries ltac:(unfold addressable in *; rewrite Hterm; exact Ha0)
                         ltac:(now rewrite Hterm, Hc0)
                         ltac:(rewrite Hi; eapply Forall_impl; [|exact Hacc];
                               now intros l [_ H])
                         (Forall_nil _)).
    destruct (parse_lookup_tables (Magic ioh) [] (imports s1) (file s1) (out s1))
      as [s2|b2 s2|]; [contradiction| |discriminate].
    injection Hparse as _ <- _. cbn [store _imports].
    split; [|exact Hentries].
    destruct Hgrows as (_ & (todo' & Hi2 & Hf2) & _). cbn [app] in Hi2.
    rewrite Hi2, (Forall2_grown_same_length _ _ Hf2). lia.
  - injection Hparse as _ <- _. cbn [store _imports]. split; [lia|].
    rewrite Hi. eapply Forall_impl; [|exact Hacc]. intros l [_ ->]. cbn. lia.
Qed.

End Counting.

Lemma X3_file_size_witness :
  (20 * List.length (_imports kernel32_parsed)
   <= List.length (Fixtures.kernel32_bytes 0x80000007))%nat
  /\ Forall (fun l => (size_to_read Fixtures.PE32 * List.length (snd l)
                       <= List.length (Fixtures.kernel32_bytes 0x80000007))%nat)
            (_imports kernel32_parsed).
Proof.
  exact (X3_file_size_bounds_the_table
           (services := Fixtures.services)
           (read_only := reference_read_only Fixtures.sections Fixtures.dirs)
           (Fixtures.kernel32 0x80000007) (mk_ioh Fixtures.PE32)
           (mkFILE (Fixtures.kernel32_bytes 0x80000007) 0) true kernel32_parsed []
           eq_refl eq_refl ltac:(reflexivity) ltac:(discriminate) eq_refl eq_refl).
Defined.

(* ------------------------------------------------------------------ *)
(** ** The parse returns *)

Section Returns.

Context {services : PEServices} {read_only : ReadOnly services}.

(** X4: on an image that has its optional header and an addressable
    file, with read-only services, [_parse_imports] terminates (each
    iteration of its loops consumes bytes of the file) and returns
    [true]; it leaves [_initialized] alone and logs at most two lines:
    at most one from the descriptor loop, then at most one error from the
    lookup tables. *)
Theorem X4_parse_terminates_and_returns_true
        (pe : PE) (ioh : image_optional_header) (f : FILE) :
  _ioh pe = Some ioh -> _file_handle pe = Some f ->
  addressable f -> 0 <= fpos f ->
  exists pe' log,
    _parse_imports pe = Some (true, pe', log)
    /\ _initialized pe' = _initialized pe
    /\ parse_log (_imports pe') log
    /\ (List.length log <= 2)%nat.
Proof.
  intros Hioh Hfile Ha Hp.
  destruct (parse_imports_total pe) as (b & pe' & log & Hparse).
  { intros f' Hf'. rewrite Hfile in Hf'. injection Hf' as <-. now split. }
  pose proof (parse_imports_spec pe b pe' log Hparse) as Hspec.
  rewrite Hioh, Hfile in Hspec. destruct Hspec as (-> & Hinit & _ & Hlog).
  exists pe', log. repeat split; auto.
  destruct Hlog as (head & tail & -> & Htail & Hhead).
  rewrite length_app.
  assert (List.length tail <= 1)%nat
    by (destruct Htail as [->|(l & -> & _)]; cbn; lia).
  assert (List.length head <= 1)%nat
    by (destruct Hhead as [->|[[-> _]|[[-> _]|[-> _]]]]; cbn; lia).
  lia.
Qed.

End Returns.

Lemma X4_parse_terminates_witness :
  exists pe' log,
    _parse_imports (services := Fixtures.services) Fixtures.cut_name
    = Some (true, pe', log)
    /\ _initialized pe' = _initialized Fixtures.cut_name
    /\ parse_log (_imports pe') log
    /\ (List.length log <= 2)%nat.
Proof.
  exact (X4_parse_terminates_and_returns_true
           (services := Fixtures.services)
           (read_only := reference_read_only Fixtures.sections Fixtures.dirs)
           Fixtures.cut_name (mk_ioh Fixtures.PE32)
           (mkFILE Fixtures.cut_name_bytes 0)
           eq_refl eq_refl ltac:(reflexivity) ltac:(discriminate)).
Defined.

(* ------------------------------------------------------------------ *)
(** ** Bytes in the file *)

Lemma of_N_byte z : exists b, Byte.of_N (Z.to_N (z mod 256)) = Some b
                              /\ Z.of_N (Byte.to_N b) = z mod 256.
Proof.
  pose proof (Z.mod_pos_bound z 256 ltac:(lia)) as Hm.
  pose proof (Byte.to_of_N_option_map (Z.to_N (z mod 256))) as H.
  destruct (N.leb_spec (Z.to_N (z mod 256)) 255) as [_|Hgt]; [|lia].
  destruct (Byte.of_N (Z.to_N (z mod 256))) as [b|]; [|discriminate H].
  exists b. split; [reflexivity|]. cbn in H. injection H as ->. lia.
Qed.

Lemma length_le_bytes w z : List.length (Fixtures.le_bytes w z) = w.
Proof.
  revert z. induction w as [|w IH]; intros z; [reflexivity|].
  cbn [Fixtures.le_bytes]. destruct (of_N_byte z) as (b & -> & _).
  cbn. now rewrite IH.
Qed.

Lemma le_decode_le_bytes w z :
  0 <= z < 256 ^ Z.of_nat w -> Int.le_decode (Fixtures.le_bytes w z) = z.
Proof.
  revert z. induction w as [|w IH]; intros z Hz.
  - cbn in *. lia.
  - cbn [Fixtures.le_bytes]. destruct (of_N_byte z) as (b & -> & Hb).
    cbn [Int.le_decode]. rewrite Hb, IH.
    + pose proof (Z.div_mod z 256 ltac:(lia)). lia.
    + rewrite Nat2Z.inj_succ, Z.pow_succ_r in Hz by lia.
      split; [apply Z.div_pos; lia | apply Z.div_lt_upper_bound; lia].
Qed.

Lemma holds_at_fread file_bytes p bytes :
  holds_at file_bytes p bytes ->
  fread (List.length bytes) (mkFILE file_bytes p)
  = (bytes, mkFILE file_bytes (p + Z.of_nat (List.length bytes))).
Proof.
  intros [_ H]. unfold fread. cbn [content fpos]. now rewrite H.
Qed.

Lemma holds_at_app file_bytes p a b :
  holds_at file_bytes p (a ++ b) ->
  holds_at file_bytes p a
  /\ holds_at file_bytes (p + Z.of_nat (List.length a)) b.
Proof.
  intros [Hp H]. unfold holds_at. rewrite length_app in H.
  replace (Z.to_nat (p + Z.of_nat (List.length a)))
    with (List.length a + Z.to_nat p)%nat by lia.
  rewrite <- skipn_skipn.
  set (l := skipn (Z.to_nat p) file_bytes) in *.
  split; split; try lia.
  - assert (E : firstn (List.length a) (firstn (List.length a + List.length b) l)
                = firstn (List.length a) (a ++ b)) by now rewrite H.
    rewrite firstn_firstn, Nat.min_l in E by lia.
    now rewrite E, firstn_app, Nat.sub_diag, firstn_all, app_nil_r.
  - rewrite firstn_skipn_comm, H, skipn_app, skipn_all, Nat.sub_diag.
    reflexivity.
Qed.

(** Bytes that stand in the file end before the file does. *)
Lemma holds_at_inside file_bytes p bytes :
  holds_at file_bytes p bytes -> bytes <> [] ->
  p + Z.of_nat (List.length bytes) <= Z.of_nat (List.length file_bytes).
Proof.
  intros [Hp H] Hne.
  assert (Hl : List.length (firstn (List.length bytes) (skipn (Z.to_nat p) file_bytes))
               = List.length bytes) by now rewrite H.
  rewrite length_firstn, length_skipn in Hl.
  destruct bytes; [contradiction|]. cbn [List.length] in *. lia.
Qed.

(* ------------------------------------------------------------------ *)
(** ** A well-formed directory is read back in file order *)

Lemma le_bytes_not_nil magic z : Fixtures.le_bytes (size_to_read magic) z <> [].
Proof.
  intros E. pose proof (length_le_bytes (size_to_read magic) z) as H.
  rewrite E in H. pose proof (size_to_read_pos magic). cbn in H. lia.
Qed.

Lemma length_encode_thunks magic thunks :
  List.length (encode_thunks magic thunks)
  = (size_to_read magic * (List.length thunks + 1))%nat.
Proof.
  unfold encode_thunks. rewrite length_app, length_le_bytes.
  induction thunks as [|v vs IH]; cbn [flat_map List.length]; [lia|].
  rewrite length_app, length_le_bytes. lia.
Qed.

Section Layout.

Context {services : PEServices} {read_only : ReadOnly services}.

Lemma read_lookup_table_reads_table magic thunks :
  forall entries file_bytes p acc fuel,
    p + Z.of_nat (size_to_read magic) * Z.of_nat (List.length thunks)
    < Int.uint32_minus_one ->
    holds_at file_bytes p (encode_thunks magic thunks) ->
    Forall (fun v => 0 < v < 256 ^ Z.of_nat (size_to_read magic)) thunks ->
    Forall2 (fun v e => resolve_thunk magic file_bytes v = Some e) thunks entries ->
    (List.length thunks < fuel)%nat ->
    read_lookup_table fuel magic (mkFILE file_bytes p) acc
    = ThunkBreak
        (mkFILE file_bytes
                (p + Z.of_nat (size_to_read magic)
                     * (Z.of_nat (List.length thunks) + 1)))
        (acc ++ entries).
Proof.
  induction thunks as [|v vs IH]; intros entries c p acc fuel Ha Hh Hr Hres Hfuel.
  - inversion Hres; subst. destruct fuel as [|fuel]; [cbn in Hfuel; lia|].
    unfold encode_thunks in Hh. cbn [flat_map app] in Hh.
    pose proof (holds_at_fread _ _ _ Hh) as Hread.
    rewrite length_le_bytes in Hread.
    rewrite (thunk_sentinel fuel magic _ acc _ _ Hread (length_le_bytes _ _)).
    + rewrite app_nil_r. do 2 f_equal. cbn [List.length]. lia.
    + apply le_decode_le_bytes. split; [lia | apply Z.pow_pos_nonneg; lia].
  - inversion Hres as [|? e ? es' Hv Hrest]; subst.
    inversion Hr as [|? ? Hvr Hrs]; subst.
    destruct fuel as [|fuel]; [cbn in Hfuel; lia|]. cbn [List.length] in Hfuel, Ha.
    rewrite Nat2Z.inj_succ, Z.mul_succ_r in Ha.
    unfold encode_thunks in Hh. cbn [flat_map] in Hh. rewrite <- app_assoc in Hh.
    apply holds_at_app in Hh. destruct Hh as [Hhead Htail].
    fold (encode_thunks magic vs) in Htail. rewrite length_le_bytes in Htail.
    pose proof (holds_at_fread _ _ _ Hhead) as Hread.
    rewrite length_le_bytes in Hread.
    pose proof (le_decode_le_bytes (size_to_read magic) v ltac:(lia)) as Hdec.
    assert (Hnext : forall e0,
               read_lookup_table fuel magic
                 (mkFILE c (p + Z.of_nat (size_to_read magic))) (acc ++ [e0])
               = ThunkBreak
                   (mkFILE c (p + Z.of_nat (size_to_read magic)
                                  * (Z.of_nat (List.length (v :: vs)) + 1)))
                   (acc ++ e0 :: es')).
    { intros e0.
      rewrite (IH es' c (p + Z.of_nat (size_to_read magic)) (acc ++ [e0]) fuel
                  ltac:(lia) Htail Hrs Hrest ltac:(lia)).
      rewrite <- app_assoc. cbn [app List.length]. do 2 f_equal. lia. }
    unfold resolve_thunk in Hv.
    destruct (Z.eqb_spec (Z.land v (mask magic)) 0) as [Hm|Hm].
    + destruct (fread 2 (mkFILE c (_rva_to_offset (Z.land v 0x7FFFFFFF))))
        as [hbuf f3] eqn:Hh2.
      destruct (Z.ltb_spec 0 (_rva_to_offset (Z.land v 0x7FFFFFFF))) as [Ht|Ht];
        cbn [andb] in Hv; [|discriminate Hv].
      destruct (Nat.eqb_spec (List.length hbuf) 2) as [Hl2|Hl2]; [|discriminate Hv].
      injection Hv as <-.
      destruct (read_ascii_string f3) as [name f4] eqn:Hn. cbn [fst].
      pose proof (thunk_by_name fuel magic (mkFILE c p) acc _ _ hbuf f3 name f4
                    Hread (length_le_bytes _ _)) as Hstep.
      rewrite Hdec in Hstep. cbn [content fpos] in Hstep.
      assert (Hbelow : 0 <= p + Z.of_nat (size_to_read magic) < Int.uint32_minus_one).
      { destruct Hhead as [Hp _].
        pose proof (Z.mul_nonneg_nonneg (Z.of_nat (size_to_read magic))
                                        (Z.of_nat (List.length vs))
                                        ltac:(lia) ltac:(lia)).
        lia. }
      rewrite (Hstep ltac:(lia) Hm Ht Hbelow Hh2 Hl2 Hn).
      assert (Hc4 : content f4 = c).
      { pose proof (read_ascii_string_reads f3) as Hc. rewrite Hn in Hc.
        cbn [snd] in Hc. rewrite Hc. unfold fread in Hh2. now injection Hh2 as _ <-. }
      rewrite Hc4. apply Hnext.
    + injection Hv as <-.
      pose proof (thunk_by_ordinal fuel magic (mkFILE c p) acc _ _
                    Hread (length_le_bytes _ _)) as Hstep.
      rewrite Hdec in Hstep. rewrite (Hstep Hm). apply Hnext.
Qed.

Lemma read_lookup_table_layout magic thunks :
  forall entries file_bytes p acc fuel,
    Z.of_nat (List.length file_bytes) < Int.uint32_minus_one ->
    holds_at file_bytes p (encode_thunks magic thunks) ->
    Forall (fun v => 0 < v < 256 ^ Z.of_nat (size_to_read magic)) thunks ->
    Forall2 (fun v e => resolve_thunk magic file_bytes v = Some e) thunks entries ->
    (List.length thunks < fuel)%nat ->
    read_lookup_table fuel magic (mkFILE file_bytes p) acc
    = ThunkBreak
        (mkFILE file_bytes
                (p + Z.of_nat (size_to_read magic)
                     * (Z.of_nat (List.length thunks) + 1)))
        (acc ++ entries).
Proof.
  intros entries c p acc fuel Ha Hh. apply read_lookup_table_reads_table; [|exact Hh].
  assert (Hne : encode_thunks magic thunks <> []).
  { unfold encode_thunks. intros E. apply app_eq_nil in E.
    exact (le_bytes_not_nil magic 0 (proj2 E)). }
  pose proof (holds_at_inside _ _ _ Hh Hne) as Hin.
  rewrite length_encode_thunks in Hin.
  pose proof (size_to_read_pos magic). nia.
Qed.

(** *** The cursor after a side trip to the Hint/Name table *)


End Layout.


(** *** Past 4 GiB the saved cursor wraps *)





Lemma fields_of_five_words (a0 a1 a2 a3 a4 : list byte) :
  List.length a0 = 4%nat -> List.length a1 = 4%nat -> List.length a2 = 4%nat ->
  List.length a3 = 4%nat -> List.length a4 = 4%nat ->
  let buf := a0 ++ a1 ++ a2 ++ a3 ++ a4 in
  Int.field 0 4 buf = Int.le_decode a0
  /\ Int.field 4 4 buf = Int.le_decode a1
  /\ Int.field 8 4 buf = Int.le_decode a2
  /\ Int.field 12 4 buf = Int.le_decode a3
  /\ Int.field 16 4 buf = Int.le_decode a4.
Proof.
  intros L0 L1 L2 L3 L4.
  destruct a0 as [|? [|? [|? [|? [|]]]]]; try discriminate L0.
  destruct a1 as [|? [|? [|? [|? [|]]]]]; try discriminate L1.
  destruct a2 as [|? [|? [|? [|? [|]]]]]; try discriminate L2.
  destruct a3 as [|? [|? [|? [|? [|]]]]]; try discriminate L3.
  destruct a4 as [|? [|? [|? [|? [|]]]]]; try discriminate L4.
  repeat split; reflexivity.
Qed.

Lemma length_encode_descriptor iid : List.length (encode_descriptor iid) = 20%nat.
Proof. unfold encode_descriptor. now rewrite !length_app, !length_le_bytes. Qed.

(** Decoding the 20 bytes of a descriptor gives its fields back. *)
Lemma decode_encode_descriptor iid :
  descriptor_in_range iid ->
  set_NameStr (decode_descriptor (encode_descriptor iid)) (NameStr iid) = iid.
Proof.
  intros (Ho & Ht & Hf & Hn & Hft).
  change (2 ^ 32) with (256 ^ Z.of_nat 4) in *.
  unfold decode_descriptor, encode_descriptor, set_NameStr.
  cbn [OriginalFirstThunk TimeDateStamp ForwarderChain Name FirstThunk].
  destruct (fields_of_five_words
              (Fixtures.le_bytes 4 (OriginalFirstThunk iid))
              (Fixtures.le_bytes 4 (TimeDateStamp iid))
              (Fixtures.le_bytes 4 (ForwarderChain iid))
              (Fixtures.le_bytes 4 (Name iid))
              (Fixtures.le_bytes 4 (FirstThunk iid)))
    as (-> & -> & -> & -> & ->); try apply length_le_bytes.
  rewrite !le_decode_le_bytes by assumption.
  now destruct iid.
Qed.

Lemma decode_encode_fields iid :
  descriptor_in_range iid ->
  decode_descriptor (encode_descriptor iid) = set_NameStr iid "".
Proof.
  intros Hr. pose proof (decode_encode_descriptor iid Hr) as H.
  transitivity (set_NameStr
                  (set_NameStr (decode_descriptor (encode_descriptor iid)) (NameStr iid))
                  "");
    [reflexivity | now rewrite H].
Qed.

Section DirectoryLayout.

Context {services : PEServices} {read_only : ReadOnly services}.

Lemma read_descriptors_layout iids :
  forall last c p libs log fuel,
    Z.of_nat (List.length c) < Int.uint32_minus_one ->
    holds_at c p (encode_directory iids last) ->
    Forall descriptor_in_range iids ->
    Forall (fun iid => is_sentinel iid = false) iids ->
    descriptor_in_range last -> is_sentinel last = true ->
    (forall i iid,
        nth_error iids i = Some iid ->
        fst (read_string_at_offset (mkFILE c (p + 20 * (Z.of_nat i + 1)))
                                   (name_offset iid))
        = (true, NameStr iid)) ->
    (List.length iids < fuel)%nat ->
    read_descriptors fuel (mk_pstate (mkFILE c p) libs log)
    = Break (mk_pstate (mkFILE c (p + 20 * (Z.of_nat (List.length iids) + 1)))
                       (libs ++ map (fun iid => (iid, [])) iids) log).
Proof.
  induction iids as [|iid rest IH];
    intros last c p libs log fuel Ha Hh Hr Hs Hlr Hls Hnames Hfuel;
    (destruct fuel as [|fuel]; [cbn in Hfuel; lia|]).
  - unfold encode_directory in Hh. cbn [flat_map app] in Hh.
    pose proof (holds_at_fread _ _ _ Hh) as Hread.
    rewrite length_encode_descriptor in Hread.
    unfold is_sentinel in Hls. apply andb_prop in Hls. destruct Hls as [Ho Hf].
    apply Z.eqb_eq in Ho, Hf.
    rewrite (descriptor_sentinel fuel (mk_pstate (mkFILE c p) libs log) _ _ Hread
               (length_encode_descriptor _)).
    + cbn [imports out map List.length]. rewrite app_nil_r. do 2 f_equal.
    + now rewrite decode_encode_fields.
    + now rewrite decode_encode_fields.
  - inversion Hr as [|? ? Hiid Hrest]; subst.
    inversion Hs as [|? ? Hnot Hnots]; subst.
    unfold encode_directory in Hh. cbn [flat_map] in Hh. rewrite <- app_assoc in Hh.
    apply holds_at_app in Hh. destruct Hh as [Hhead Htail].
    fold (encode_directory rest last) in Htail.
    rewrite length_encode_descriptor in Htail.
    pose proof (holds_at_fread _ _ _ Hhead) as Hread.
    assert (Hne : encode_descriptor iid <> [])
      by (intros E; pose proof (length_encode_descriptor iid) as L;
          rewrite E in L; discriminate L).
    pose proof (holds_at_inside _ _ _ Hhead Hne) as Hin.
    rewrite length_encode_descriptor in Hread, Hin.
    pose proof (Hnames 0%nat iid eq_refl) as Hname.
    change (p + 20 * (Z.of_nat 0 + 1)) with (p + 20 * 1) in Hname.
    replace (p + 20 * 1) with (p + Z.of_nat 20) in Hname by lia.
    destruct (read_string_at_offset (mkFILE c (p + Z.of_nat 20)) (name_offset iid))
      as [[ok str] f2] eqn:Hn.
    cbn [fst] in Hname. injection Hname as -> ->.
    pose proof Hn as Hrestore.
    apply read_string_at_offset_restores in Hrestore;
      [|destruct Hhead; cbn [fpos]; unfold Int.uint32_minus_one in *; lia].
    subst f2.
    rewrite (descriptor_accepted fuel (mk_pstate (mkFILE c p) libs log) _ _
               (NameStr iid) (mkFILE c (p + Z.of_nat 20)) Hread
               (length_encode_descriptor _)).
    + rewrite decode_encode_descriptor by assumption. cbn [imports out].
      rewrite (IH last c (p + Z.of_nat 20) (libs ++ [(iid, [])]) log fuel
                  Ha Htail Hrest Hnots Hlr Hls).
      * cbn [map List.length]. rewrite <- app_assoc. cbn [app].
        do 3 f_equal. lia.
      * intros i iid' Hi. specialize (Hnames (S i) iid' Hi).
        replace (p + Z.of_nat 20 + 20 * (Z.of_nat i + 1))
          with (p + 20 * (Z.of_nat (S i) + 1)) by lia.
        exact Hnames.
      * cbn [List.length] in Hfuel. lia.
    + now rewrite decode_encode_fields.
    + now rewrite decode_encode_fields.
Qed.

Lemma parse_lookup_tables_layout magic (libs : list library_layout) :
  forall (done : list image_library_descriptor) f log,
    addressable f ->
    Forall (table_at magic (content f)) libs ->
    exists f',
      parse_lookup_tables magic done
                          (map (fun l : library_layout => (fst (fst l), [])) libs) f log
      = Return true
          (mk_pstate f'
             (done ++ map (fun l : library_layout => (fst (fst l), snd l)) libs) log)
      /\ content f' = content f.
Proof.
  induction libs as [|[[iid thunks] entries] rest IH]; intros done f log Ha Hall.
  - exists f. cbn. now rewrite app_nil_r.
  - inversion Hall as [|? ? Htable Hrest]; subst.
    red in Htable. destruct Htable as (Hpos & Hh & Hr & Hres).
    cbn [map fst snd].
    rewrite lookup_table_reached by assumption. cbv zeta.
    assert (Hfuel : (List.length thunks
                     < fuel_of (mkFILE (content f) (ilt_offset_of iid)))%nat).
    { assert (Hne : encode_thunks magic thunks <> []).
      { intros E. pose proof (length_encode_thunks magic thunks) as L.
        rewrite E in L. pose proof (size_to_read_pos magic). cbn in L. nia. }
      pose proof (holds_at_inside _ _ _ Hh Hne) as Hin.
      rewrite length_encode_thunks in Hin.
      pose proof (size_to_read_pos magic). unfold fuel_of. cbn [content]. nia. }
    rewrite (read_lookup_table_layout magic thunks entries (content f) _ [] _
               Ha Hh Hr Hres Hfuel).
    cbn [app].
    destruct (IH (done ++ [(iid, entries)])
                 (mkFILE (content f)
                         (ilt_offset_of iid
                          + Z.of_nat (size_to_read magic)
                            * (Z.of_nat (List.length thunks) + 1)))
                 log Ha Hrest) as (f' & Hparse & Hc).
    exists f'. rewrite Hparse. rewrite <- app_assoc. now split.
Qed.

End DirectoryLayout.

Lemma length_encode_directory iids last :
  List.length (encode_directory iids last) = (20 * (List.length iids + 1))%nat.
Proof.
  unfold encode_directory. rewrite length_app, length_encode_descriptor.
  induction iids as [|iid rest IH]; cbn [flat_map List.length]; [lia|].
  rewrite length_app, length_encode_descriptor. lia.
Qed.

(** The library of the first descriptor with the name asked for answers
    [get_imported_functions]. *)
Lemma get_imported_functions_first pe before l after dll :
  _initialized pe = true ->
  _imports pe = before ++ l :: after ->
  Forall (fun l' => NameStr (fst l') <> dll) before ->
  NameStr (fst l) = dll ->
  get_imported_functions pe dll = map function_label (snd l).
Proof.
  intros Hinit Himports Hbefore Hname.
  unfold get_imported_functions. rewrite Hinit, Himports. cbn [negb].
  clear Himports.
  induction Hbefore as [|l' before Hne _ IH]; cbn [app find].
  - destruct (String.eqb_spec (NameStr (fst l)) dll); [reflexivity | contradiction].
  - destruct (String.eqb_spec (NameStr (fst l')) dll); [contradiction | exact IH].
Qed.

Section WholeParse.

Context {services : PEServices} {read_only : ReadOnly services}.

(** The parse of a well-formed import directory: descriptors then a
    terminating one at the offset of the directory, readable names, and
    for each library a lookup table of resolvable thunks then a zero
    thunk. *)
Lemma parse_imports_layout
      (pe : PE) (ioh : image_optional_header) (f : FILE) (p : Z)
      (libs : list library_layout) (last : image_import_descriptor) :
  _ioh pe = Some ioh -> _file_handle pe = Some f -> _imports pe = [] ->
  addressable f ->
  _reach_directory IMAGE_DIRECTORY_ENTRY_IMPORT f = (true, mkFILE (content f) p) ->
  holds_at (content f) p
           (encode_directory (map (fun l : library_layout => fst (fst l)) libs) last) ->
  Forall (fun l : library_layout =>
            descriptor_in_range (fst (fst l)) /\ is_sentinel (fst (fst l)) = false)
         libs ->
  descriptor_in_range last -> is_sentinel last = true ->
  (forall i (l : library_layout),
      nth_error libs i = Some l ->
      fst (read_string_at_offset (mkFILE (content f) (p + 20 * (Z.of_nat i + 1)))
                                 (name_offset (fst (fst l))))
      = (true, NameStr (fst (fst l)))) ->
  Forall (table_at (Magic ioh) (content f)) libs ->
  exists f',
    _parse_imports pe
    = Some (true,
            mk_PE (Some ioh) (Some f')
                  (map (fun l : library_layout => (fst (fst l), snd l)) libs)
                  (_initialized pe),
            [])
    /\ content f' = content f.
Proof.
  intros Hioh Hfile Hempty Ha Hreach Hdir Hlibs Hlr Hls Hnames Htables.
  unfold _parse_imports. rewrite Hioh, Hfile, Hreach, Hempty. cbn [negb].
  unfold parse_directory. cbn [file].
  assert (Hfuel : (List.length (map (fun l : library_layout => fst (fst l)) libs)
                   < fuel_of (mkFILE (content f) p))%nat).
  { assert (Hne : encode_directory (map (fun l : library_layout => fst (fst l)) libs) last
                  <> []).
    { intros E. pose proof (length_encode_directory
                              (map (fun l : library_layout => fst (fst l)) libs) last) as L.
      rewrite E in L. cbn in L. lia. }
    pose proof (holds_at_inside _ _ _ Hdir Hne) as Hin.
    rewrite length_encode_directory in Hin. pose proof (proj1 Hdir).
    unfold fuel_of. cbn [content]. lia. }
  rewrite (read_descriptors_layout _ last (content f) p [] [] _ Ha Hdir).
  - cbn [app imports file out]. rewrite map_map.
    destruct (parse_lookup_tables_layout (Magic ioh) libs []
                (mkFILE (content f)
                   (p + 20 * (Z.of_nat (List.length
                        (map (fun l : library_layout => fst (fst l)) libs)) + 1)))
                [] Ha Htables) as (f' & Hparse & Hc).
    rewrite Hparse. exists f'. unfold store. cbn [file imports out app].
    rewrite Hioh. now split.
  - apply Forall_map. eapply Forall_impl; [|exact Hlibs]. now intros l [H _].
  - apply Forall_map. eapply Forall_impl; [|exact Hlibs]. now intros l [_ H].
  - exact Hlr.
  - exact Hls.
  - intros i iid Hi. rewrite nth_error_map in Hi.
    destruct (nth_error libs i) as [l|] eqn:Hl; [|discriminate Hi].
    injection Hi as <-. now apply Hnames.
  - exact Hfuel.
Qed.

(** X5: a well-formed import directory with N libraries of M_i entries
    is read back exactly.  The parse returns [true] and logs nothing; the
    table is the N descriptors in file order, each with the entries its
    M_i thunks resolve to, in file order; [get_imported_dlls] returns the
    N names in file order, and [get_imported_functions] returns, for a
    library whose name no earlier library has, one label per thunk, in
    file order. *)
Theorem X5_well_formed_directory_is_read_back
        (pe : PE) (ioh : image_optional_header) (f : FILE) (p : Z)
        (libs : list library_layout) (last : image_import_descriptor) :
  _ioh pe = Some ioh -> _file_handle pe = Some f -> _imports pe = [] ->
  _initialized pe = true ->
  addressable f ->
  _reach_directory IMAGE_DIRECTORY_ENTRY_IMPORT f = (true, mkFILE (content f) p) ->
  holds_at (content f) p
           (encode_directory (map (fun l : library_layout => fst (fst l)) libs) last) ->
  Forall (fun l : library_layout =>
            descriptor_in_range (fst (fst l)) /\ is_sentinel (fst (fst l)) = false)
         libs ->
  descriptor_in_range last -> is_sentinel last = true ->
  (forall i (l : library_layout),
      nth_error libs i = Some l ->
      fst (read_string_at_offset (mkFILE (content f) (p + 20 * (Z.of_nat i + 1)))
                                 (name_offset (fst (fst l))))
      = (true, NameStr (fst (fst l)))) ->
  Forall (table_at (Magic ioh) (content f)) libs ->
  exists pe',
    option_map (fun r => (fst (fst r), snd r)) (_parse_imports pe) = Some (true, [])
    /\ option_map (fun r => snd (fst r)) (_parse_imports pe) = Some pe'
    /\ _imports pe' = map (fun l : library_layout => (fst (fst l), snd l)) libs
    /\ get_imported_dlls pe'
       = map (fun l : library_layout => NameStr (fst (fst l))) libs
    /\ (forall before (l : library_layout) after,
           libs = before ++ l :: after ->
           Forall (fun l' : library_layout =>
                     NameStr (fst (fst l')) <> NameStr (fst (fst l))) before ->
           get_imported_functions pe' (NameStr (fst (fst l)))
           = map function_label (snd l)
           /\ List.length (get_imported_functions pe' (NameStr (fst (fst l))))
              = List.length (snd (fst l))).
Proof.
  intros Hioh Hfile Hempty Hinit Ha Hreach Hdir Hlibs Hlr Hls Hnames Htables.
  destruct (parse_imports_layout pe ioh f p libs last Hioh Hfile Hempty Ha Hreach
              Hdir Hlibs Hlr Hls Hnames Htables) as (f' & Hparse & _).
  rewrite Hparse.
  exists (mk_PE (Some ioh) (Some f')
                (map (fun l : library_layout => (fst (fst l), snd l)) libs)
                (_initialized pe)).
  split; [reflexivity|]. split; [reflexivity|].
  cbn [_imports]. split; [reflexivity|]. split.
  - unfold get_imported_dlls. cbn [_initialized _imports]. rewrite Hinit.
    cbn [negb]. now rewrite map_map.
  - intros before l after -> Hbefore.
    assert (Hfirst : get_imported_functions
                       (mk_PE (Some ioh) (Some f')
                          (map (fun l0 : library_layout => (fst (fst l0), snd l0))
                               (before ++ l :: after))
                          (_initialized pe))
                       (NameStr (fst (fst l)))
                     = map function_label (snd l)).
    { eapply (get_imported_functions_first _
                (map (fun l0 : library_layout => (fst (fst l0), snd l0)) before)
                (fst (fst l), snd l)
                (map (fun l0 : library_layout => (fst (fst l0), snd l0)) after)).
      - exact Hinit.
      - cbn [_imports]. now rewrite map_app.
      - apply Forall_map. exact Hbefore.
      - reflexivity. }
    split; [exact Hfirst|].
    rewrite Hfirst, length_map.
    apply Forall_app in Htables. destruct Htables as [_ Ht].
    inversion Ht as [|? ? Hl _]; subst. destruct l as [[iid thunks] entries].
    red in Hl. destruct Hl as (_ & _ & _ & Hres). cbn [fst snd].
    symmetry. eapply Forall2_length. exact Hres.
Qed.

End WholeParse.

Lemma X5_well_formed_directory_witness :
  exists pe',
    option_map (fun r => (fst (fst r), snd r))
               (_parse_imports (services := Fixtures.services)
                               (Fixtures.kernel32 0x80000007))
    = Some (true, [])
    /\ option_map (fun r => snd (fst r))
                  (_parse_imports (services := Fixtures.services)
                                  (Fixtures.kernel32 0x80000007))
       = Some pe'
    /\ _imports pe'
       = map (fun l : library_layout => (fst (fst l), snd l)) kernel32_layout
    /\ get_imported_dlls pe'
       = map (fun l : library_layout => NameStr (fst (fst l))) kernel32_layout
    /\ (forall before (l : library_layout) after,
           kernel32_layout = before ++ l :: after ->
           Forall (fun l' : library_layout =>
                     NameStr (fst (fst l')) <> NameStr (fst (fst l))) before ->
           get_imported_functions pe' (NameStr (fst (fst l)))
           = map function_label (snd l)
           /\ List.length (get_imported_functions pe' (NameStr (fst (fst l))))
              = List.length (snd (fst l))).
Proof.
  refine (X5_well_formed_directory_is_read_back
            (services := Fixtures.services)
            (read_only := reference_read_only Fixtures.sections Fixtures.dirs)
            (Fixtures.kernel32 0x80000007) (mk_ioh Fixtures.PE32)
            (mkFILE (Fixtures.kernel32_bytes 0x80000007) 0) 16
            kernel32_layout (mk_iid 0 0 0 0 0 "")
            eq_refl eq_refl eq_refl eq_refl _ eq_refl _ _ _ eq_refl _ _).
  - reflexivity.
  - split; [lia | reflexivity].
  - repeat constructor; vm_compute; discriminate.
  - vm_compute. repeat split; discriminate.
  - intros [|[|i]] l Hl; try discriminate Hl. injection Hl as <-. reflexivity.
  - constructor; [|constructor]. red. split; [reflexivity|].
    split; [split; [vm_compute; discriminate | reflexivity]|].
    split; repeat constructor.
Defined.

(* ------------------------------------------------------------------ *)
(** ** More on the query layer *)

Lemma get_imported_functions_unknown pe dll :
  Forall (fun l => NameStr (fst l) <> dll) (_imports pe) ->
  get_imported_functions pe dll = [].
Proof.
  intros Hall. unfold get_imported_functions.
  destruct (negb (_initialized pe)); [reflexivity|].
  induction Hall as [|l ls Hne _ IH]; cbn [find]; [reflexivity|].
  destruct (String.eqb_spec (NameStr (fst l)) dll); [contradiction | exact IH].
Qed.

(** X6: [get_imported_functions] answers with the first library that
    has exactly the name asked for: the libraries after it, others of the
    same name included, do not matter, and a name no library has gives the
    empty list. *)
Theorem X6_first_library_of_a_name_answers
        (pe : PE) (before : list image_library_descriptor)
        (l : image_library_descriptor) (after : list image_library_descriptor)
        (dll : string) :
  _initialized pe = true ->
  _imports pe = before ++ l :: after ->
  Forall (fun l' => NameStr (fst l') <> dll) before ->
  NameStr (fst l) = dll ->
  get_imported_functions pe dll = map function_label (snd l)
  /\ (forall after',
         get_imported_functions
           (mk_PE (_ioh pe) (_file_handle pe) (before ++ l :: after') true) dll
         = get_imported_functions pe dll)
  /\ (forall other,
         Forall (fun l' => NameStr (fst l') <> other) (_imports pe) ->
         get_imported_functions pe other = []).
Proof.
  intros Hinit Himports Hbefore Hname.
  pose proof (get_imported_functions_first pe before l after dll
                Hinit Himports Hbefore Hname) as Hfirst.
  split; [exact Hfirst|]. split.
  - intros after'. rewrite Hfirst.
    now apply (get_imported_functions_first _ before l after' dll).
  - intros other. apply get_imported_functions_unknown.
Qed.

Lemma X6_first_library_witness :
  let first := (mk_iid 1 0 0 2 3 "a.dll", [mk_ilt 0x80000001 0 ""]) in
  let second := (mk_iid 4 0 0 5 6 "a.dll", [mk_ilt 7 8 "f"]) in
  get_imported_functions (mk_PE None None [first; second] true) "a.dll" = ["#1"].
Proof.
  exact (proj1 (X6_first_library_of_a_name_answers
                  (mk_PE None None
                         [(mk_iid 1 0 0 2 3 "a.dll", [mk_ilt 0x80000001 0 ""]);
                          (mk_iid 4 0 0 5 6 "a.dll", [mk_ilt 7 8 "f"])] true)
                  [] (mk_iid 1 0 0 2 3 "a.dll", [mk_ilt 0x80000001 0 ""])
                  [(mk_iid 4 0 0 5 6 "a.dll", [mk_ilt 7 8 "f"])] "a.dll"
                  eq_refl eq_refl (Forall_nil _) eq_refl)).
Defined.

Lemma decimal_not_empty z : decimal z <> "".
Proof.
  unfold decimal. intros E.
  assert (Hnil : N.to_uint (Z.to_N z) = Decimal.Nil)
    by (destruct (N.to_uint (Z.to_N z)); cbn in E; (reflexivity || discriminate E)).
  pose proof (DecimalN.Unsigned.of_to (Z.to_N z)) as Hn.
  rewrite Hnil in Hn. cbn in Hn. rewrite <- Hn in Hnil. discriminate Hnil.
Qed.

(** X7: every string [get_imported_functions] returns stands for an
    entry of a library of that name, and is never empty: it is the entry's
    name when the entry has one, and otherwise "#" followed by the decimal
    digits of the low 15 bits of the raw thunk, a number below 32768. *)
Theorem X7_labels_are_names_or_numbers (pe : PE) (dll s : string) :
  In s (get_imported_functions pe dll) ->
  s <> ""
  /\ exists l e,
      In l (_imports pe) /\ NameStr (fst l) = dll /\ In e (snd l)
      /\ ((ilt_Name e <> "" /\ s = ilt_Name e)
          \/ (ilt_Name e = ""
              /\ s = ("#" ++ decimal (AddressOfData e mod 2 ^ 15))%string
              /\ decimal (AddressOfData e mod 2 ^ 15) <> ""
              /\ 0 <= AddressOfData e mod 2 ^ 15 < 32768)).
Proof.
  unfold get_imported_functions.
  destruct (negb (_initialized pe)); [intros []|].
  match goal with
  | |- context [find ?p ?ls] => destruct (find p ls) as [ild|] eqn:Hfind
  end; [|intros []].
  apply find_some in Hfind. destruct Hfind as [Hin Hname].
  apply String.eqb_eq in Hname.
  intros Hs. apply in_map_iff in Hs. destruct Hs as (e & Hlabel & He).
  assert (Hcases : (ilt_Name e <> "" /\ s = ilt_Name e)
                   \/ (ilt_Name e = ""
                       /\ s = ("#" ++ decimal (AddressOfData e mod 2 ^ 15))%string
                       /\ decimal (AddressOfData e mod 2 ^ 15) <> ""
                       /\ 0 <= AddressOfData e mod 2 ^ 15 < 32768)).
  { destruct e as [raw hint name]. cbn [ilt_Name AddressOfData] in *.
    destruct (String.eqb_spec name "") as [->|Hne].
    - right. rewrite ordinal_label in Hlabel.
      repeat split; auto using decimal_not_empty; apply Z.mod_pos_bound; lia.
    - left. unfold function_label in Hlabel. cbn [ilt_Name] in Hlabel.
      destruct (String.eqb_spec name ""); [contradiction|]. cbn in Hlabel. auto. }
  split.
  - destruct Hcases as [[Hne ->]|(_ & -> & _)]; [exact Hne | discriminate].
  - exists ild, e. auto.
Qed.

Lemma X7_labels_witness :
  "#7" <> ""
  /\ exists l e,
      In l (Fixtures.kernel32_table 0x80000007)
      /\ NameStr (fst l) = "kernel32.dll" /\ In e (snd l)
      /\ ((ilt_Name e <> "" /\ "#7" = ilt_Name e)
          \/ (ilt_Name e = ""
              /\ "#7" = ("#" ++ decimal (AddressOfData e mod 2 ^ 15))%string
              /\ decimal (AddressOfData e mod 2 ^ 15) <> ""
              /\ 0 <= AddressOfData e mod 2 ^ 15 < 32768)).
Proof.
  exact (X7_labels_are_names_or_numbers
           (mk_PE None None (Fixtures.kernel32_table 0x80000007) true)
           "kernel32.dll" "#7" (or_intror (or_intror (or_introl eq_refl)))).
Defined.

Section SearchProperties.

Context {engine : RegexEngine}.

(** What [find_imports] returns are names of entries of the table. *)
Lemma find_imports_In d pe fp lp cs name :
  In name (find_imports d pe fp lp cs) ->
  exists l e,
    In l (_imports pe) /\ In e (snd l) /\ ilt_Name e = name /\ name <> "".
Proof.
  rewrite find_imports_unfold, in_flat_map.
  intros (l & Hl & Hin). unfold _find_imported_dlls in Hl.
  destruct (negb (_initialized pe)); [destruct Hl|].
  apply filter_In in Hl. destruct Hl as [Hl _].
  unfold matching_functions in Hin. apply in_map_iff in Hin.
  destruct Hin as (e & He & Hin). apply filter_In in Hin.
  destruct Hin as (Hin & Hok). apply andb_prop in Hok. destruct Hok as (Hne & _).
  exists l, e. repeat split; auto.
  intros E. rewrite He, E in Hne. discriminate Hne.
Qed.

(** X8: when no two libraries of the table have the same name, every
    function [find_imports] returns is listed by [get_imported_functions]
    for one of the names [get_imported_dlls] returns.  (With two
    libraries of one name, the functions of the second are found by
    [find_imports] and never listed by [get_imported_functions].) *)
Theorem X8_search_results_are_listed
        (d : bool) (pe : PE) (fp lp : string) (cs : bool) (name : string) :
  NoDup (map (fun l => NameStr (fst l)) (_imports pe)) ->
  In name (find_imports d pe fp lp cs) ->
  exists dll,
    In dll (get_imported_dlls pe) /\ In name (get_imported_functions pe dll).
Proof.
  intros Hnodup Hin.
  assert (Hinit : _initialized pe = true).
  { unfold find_imports in Hin. destruct (_initialized pe); [reflexivity|destruct Hin]. }
  apply find_imports_In in Hin. destruct Hin as (l & e & Hl & He & Hname & Hne).
  exists (NameStr (fst l)). split.
  - unfold get_imported_dlls. rewrite Hinit. cbn [negb].
    now apply (in_map (fun l => NameStr (fst l))).
  - apply in_split in Hl. destruct Hl as (before & after & Himports).
    rewrite (get_imported_functions_first pe before l after (NameStr (fst l)));
      auto.
    + apply in_map_iff. exists e. split; [|exact He].
      unfold function_label. rewrite Hname.
      destruct (String.eqb_spec name ""); [contradiction | reflexivity].
    + rewrite Himports, map_app in Hnodup. cbn [map] in Hnodup.
      apply NoDup_remove_2 in Hnodup.
      apply Forall_forall. intros l' Hl' E. apply Hnodup.
      apply in_or_app. left. rewrite <- E.
      now apply (in_map (fun l => NameStr (fst l))).
Qed.

(** X9: with patterns that match every string, [find_imports] returns
    the names of all the entries that have one, library by library in the
    order of the table, duplicates kept. *)
Theorem X9_match_all_lists_every_named_entry
        (d : bool) (pe : PE) (fp lp : string) (cs : bool) :
  _initialized pe = true ->
  (forall s, regex_match s (boost_regex lp (negb d)) = true) ->
  (forall s, regex_match s (boost_regex fp (negb cs)) = true) ->
  find_imports d pe fp lp cs
  = flat_map (fun l => filter (fun n => negb (String.eqb n ""))
                              (map ilt_Name (snd l)))
             (_imports pe).
Proof.
  intros Hinit Hlp Hfp. rewrite find_imports_unfold.
  unfold _find_imported_dlls. rewrite Hinit. cbn [negb].
  replace (if d then boost_regex lp false else boost_regex lp true)
    with (boost_regex lp (negb d)) by now destruct d.
  assert (Hall : filter (fun l => regex_match (NameStr (fst l)) (boost_regex lp (negb d)))
                        (_imports pe) = _imports pe).
  { induction (_imports pe) as [|l ls IH]; cbn [filter]; [reflexivity|].
    now rewrite Hlp, IH. }
  rewrite Hall. apply flat_map_ext. intros l. unfold matching_functions.
  induction (snd l) as [|e es IH]; cbn [filter map]; [reflexivity|].
  rewrite Hfp, andb_true_r.
  destruct (negb (String.eqb (ilt_Name e) "")); cbn [map]; now rewrite IH.
Qed.

End SearchProperties.

Lemma X8_search_results_witness :
  exists dll,
    In dll (get_imported_dlls (mk_PE None None (Fixtures.kernel32_table 0x80000007) true))
    /\ In "CreateFileA"
          (get_imported_functions
             (mk_PE None None (Fixtures.kernel32_table 0x80000007) true) dll).
Proof.
  exact (X8_search_results_are_listed
           (engine := PerlRegex.engine) false
           (mk_PE None None (Fixtures.kernel32_table 0x80000007) true)
           "^Create.*" ".*" true "CreateFileA"
           ltac:(repeat constructor; intros [])
           (or_introl eq_refl)).
Defined.

(** Two libraries of one name: the function of the second one is found
    and not listed. *)
Example duplicate_names_hide_functions :
  let pe := mk_PE None None
                  [(mk_iid 1 0 0 2 3 "a.dll", [mk_ilt 7 8 "f"]);
                   (mk_iid 4 0 0 5 6 "a.dll", [mk_ilt 9 10 "g"])] true in
  find_imports (engine := PerlRegex.engine) false pe "g" ".*" true = ["g"]
  /\ get_imported_dlls pe = ["a.dll"; "a.dll"]
  /\ get_imported_functions pe "a.dll" = ["f"].
Proof. vm_compute. repeat split; reflexivity. Qed.

Lemma any_star_matches ic s start :
  PerlRegex.match_items ic [(PerlRegex.AnyChar, PerlRegex.Star)] s start = true.
Proof.
  revert start. induction s as [|c s IH]; intros start; [reflexivity|].
  cbn in *. now rewrite IH.
Qed.

(** The pattern ".*" matches every string. *)
Lemma dot_star_matches_everything ic s :
  PerlRegex.full_match s (PerlRegex.compile ".*" ic) = true.
Proof. apply any_star_matches. Qed.

Lemma X9_match_all_witness :
  find_imports (engine := PerlRegex.engine) false
               (mk_PE None None (Fixtures.kernel32_table 0x80000007) true)
               ".*" ".*" true
  = ["CreateFileA"; "CreateMutexW"].
Proof.
  exact (X9_match_all_lists_every_named_entry
           (engine := PerlRegex.engine) false
           (mk_PE None None (Fixtures.kernel32_table 0x80000007) true)
           ".*" ".*" true eq_refl
           (dot_star_matches_everything true)
           (dot_star_matches_everything false)).
Defined.

(* ------------------------------------------------------------------ *)
(** ** Version numbers *)

Lemma string_of_uint_dotless d : dotless (NilEmpty.string_of_uint d).
Proof. induction d; cbn; auto; split; auto; discriminate. Qed.

Lemma decimal_dotless z : dotless (decimal z).
Proof. apply string_of_uint_dotless. Qed.

Lemma split_at_dot s1 : forall s2 t1 t2,
  dotless s1 -> dotless s2 ->
  (s1 ++ String "." t1 = s2 ++ String "." t2)%string ->
  s1 = s2 /\ t1 = t2.
Proof.
  induction s1 as [|c s1 IH]; intros [|c' s2] t1 t2 H1 H2 E; cbn in *.
  - injection E as ->. now split.
  - injection E as <- _. destruct H2 as [H2 _]. now contradiction H2.
  - injection E as -> _. destruct H1 as [H1 _]. now contradiction H1.
  - injection E as -> E. destruct H1 as [_ H1], H2 as [_ H2].
    destruct (IH s2 t1 t2 H1 H2 E) as [-> ->]. now split.
Qed.

Lemma decimal_inj a b : 0 <= a -> 0 <= b -> decimal a = decimal b -> a = b.
Proof.
  intros Ha Hb E. unfold decimal in E.
  pose proof (NilEmpty.usu (N.to_uint (Z.to_N a))) as Hua.
  pose proof (NilEmpty.usu (N.to_uint (Z.to_N b))) as Hub.
  rewrite E, Hub in Hua. injection Hua as Hu.
  apply (f_equal N.of_uint) in Hu. rewrite !DecimalN.Unsigned.of_to in Hu. lia.
Qed.

(** A 32-bit word is its two 16-bit halves. *)
Lemma halves_of_word a :
  0 <= a < 2 ^ 32 ->
  0 <= Z.land (Z.shiftr a 16) 0xFFFF
  /\ 0 <= Z.land a 0xFFFF
  /\ a = 65536 * Z.land (Z.shiftr a 16) 0xFFFF + Z.land a 0xFFFF.
Proof.
  intros Ha. change 0xFFFF with (Z.ones 16).
  rewrite !Z.land_ones, Z.shiftr_div_pow2 by lia.
  change (2 ^ 16) with 65536.
  assert (0 <= a / 65536 < 65536)
    by (split; [apply Z.div_pos; lia | apply Z.div_lt_upper_bound; lia]).
  rewrite (Z.mod_small (a / 65536)) by lia.
  pose proof (Z.div_mod a 65536 ltac:(lia)).
  pose proof (Z.mod_pos_bound a 65536 ltac:(lia)). lia.
Qed.

(** X10: [uint64_to_version_number] loses nothing: two pairs of 32-bit
    words that print the same version number are the same pair. *)
Theorem X10_version_number_is_injective (ms ls ms' ls' : Z) :
  0 <= ms < 2 ^ 32 -> 0 <= ls < 2 ^ 32 ->
  0 <= ms' < 2 ^ 32 -> 0 <= ls' < 2 ^ 32 ->
  uint64_to_version_number ms ls = uint64_to_version_number ms' ls' ->
  ms = ms' /\ ls = ls'.
Proof.
  intros Hm Hl Hm' Hl' E. unfold uint64_to_version_number in E.
  destruct (halves_of_word ms Hm) as (A1 & A2 & A3).
  destruct (halves_of_word ls Hl) as (B1 & B2 & B3).
  destruct (halves_of_word ms' Hm') as (A1' & A2' & A3').
  destruct (halves_of_word ls' Hl') as (B1' & B2' & B3').
  cbn [append] in E.
  apply split_at_dot in E; auto using decimal_dotless. destruct E as [E1 E].
  apply split_at_dot in E; auto using decimal_dotless. destruct E as [E2 E].
  apply split_at_dot in E; auto using decimal_dotless. destruct E as [E3 E4].
  apply decimal_inj in E1, E2, E3, E4; auto. lia.
Qed.

Lemma X10_version_number_witness : 0x00060001 = 0x00060001 /\ 0x1DB04001 = 0x1DB04001.
Proof.
  exact (X10_version_number_is_injective 0x00060001 0x1DB04001 0x00060001 0x1DB04001
           ltac:(lia) ltac:(lia) ltac:(lia) ltac:(lia) eq_refl).
Defined.

(* ------------------------------------------------------------------ *)
(** ** The output tree: add_data and find_node *)

Lemma find_snoc {A : Type} (p : A -> bool) (l : list A) (x : A) :
  find p (l ++ [x])
  = match find p l with
    | Some y => Some y
    | None => if p x then Some x else None
    end.
Proof.
  induction l as [|a l IH]; cbn [app find]; [reflexivity|].
  destruct (p a); [reflexivity | exact IH].
Qed.

Section OutputTree.

Variable pNode : Type.
Variable get_name : pNode -> string.

Local Abbreviation file_node := (Output.file_node pNode).
Local Abbreviation root_find_node := (Output.root_find_node pNode).
Local Abbreviation file_find_node := (Output.file_find_node pNode get_name).
Local Abbreviation append_in := (Output.append_in pNode).
Local Abbreviation add_data := (Output.add_data pNode get_name).
Local Abbreviation find_node := (Output.find_node pNode get_name).

Lemma root_find_node_path root file_path fn :
  root_find_node root file_path = Some fn -> Output.path pNode fn = file_path.
Proof.
  intros H. apply find_some in H. destruct H as [_ H]. now apply String.eqb_eq.
Qed.

Lemma root_find_node_append_in root file_path n fn :
  root_find_node root file_path = Some fn ->
  root_find_node (append_in root file_path n) file_path
  = Some (Output.mk_file_node pNode (Output.path pNode fn)
                              (Output.children pNode fn ++ [n])).
Proof.
  unfold Output.root_find_node.
  induction root as [|a root IH]; cbn [find Output.append_in]; [discriminate|].
  destruct (String.eqb_spec (Output.path pNode a) file_path) as [E|E].
  - intros [= <-]. cbn [find Output.path]. now rewrite E, String.eqb_refl.
  - intros H. cbn [find].
    destruct (String.eqb_spec (Output.path pNode a) file_path); [contradiction|].
    now apply IH.
Qed.

Lemma root_find_node_append_in_other root file_path n other :
  other <> file_path ->
  root_find_node (append_in root file_path n) other = root_find_node root other.
Proof.
  intros Hne. unfold Output.root_find_node.
  induction root as [|a root IH]; cbn [find Output.append_in]; [reflexivity|].
  destruct (String.eqb_spec (Output.path pNode a) file_path) as [E|E];
    cbn [find Output.path].
  - destruct (String.eqb_spec (Output.path pNode a) other); [congruence | reflexivity].
  - destruct (String.eqb (Output.path pNode a) other); [reflexivity | exact IH].
Qed.

Lemma map_path_append_in root file_path n :
  map (Output.path pNode) (append_in root file_path n)
  = map (Output.path pNode) root.
Proof.
  induction root as [|a root IH]; cbn [map Output.append_in]; [reflexivity|].
  destruct (String.eqb (Output.path pNode a) file_path); cbn [map Output.path];
    [reflexivity | now rewrite IH].
Qed.

Lemma stored_append_in root file_path n fn :
  root_find_node root file_path = Some fn ->
  Output.stored pNode (append_in root file_path n) = S (Output.stored pNode root).
Proof.
  unfold Output.root_find_node, Output.stored.
  induction root as [|a root IH]; cbn [find Output.append_in]; [discriminate|].
  destruct (String.eqb (Output.path pNode a) file_path).
  - intros _. cbn [map list_sum Output.children]. rewrite length_app. cbn. lia.
  - intros H. cbn [map]. unfold list_sum in *. cbn [fold_right].
    rewrite (IH H). lia.
Qed.

(** X11: looking up a node after adding it.  [find_node] for the name
    and the file of the node [add_data] just stored returns that node,
    unless a node of this name was already stored for the file: then the
    older node keeps answering, and [add_data] has logged a warning (and
    only then).  Look-ups of another name or for another file are not
    affected. *)
Theorem X11_find_node_after_add_data
        (root : list file_node) (n : pNode) (file_path : string) :
  find_node (fst (add_data root n file_path)) (get_name n) file_path
  = Some (match find_node root (get_name n) file_path with
          | Some older => older
          | None => n
          end)
  /\ (snd (add_data root n file_path) = []
      <-> find_node root (get_name n) file_path = None)
  /\ (forall name other,
         other <> file_path \/ name <> get_name n ->
         find_node (fst (add_data root n file_path)) name other
         = find_node root name other).
Proof.
  unfold Output.add_data, Output.find_node.
  destruct (root_find_node root file_path) as [fn|] eqn:Hfind; cbn [fst snd].
  - split; [|split].
    + rewrite (root_find_node_append_in root file_path n fn Hfind).
      unfold Output.file_find_node. cbn [Output.children]. rewrite find_snoc.
      destruct (find _ (Output.children pNode fn)); [reflexivity|].
      now rewrite String.eqb_refl.
    + destruct (file_find_node fn (get_name n)); split; intros E;
        (discriminate E || reflexivity).
    + intros name other Hdiff.
      destruct (String.eqb_spec other file_path) as [->|Hne].
      * destruct Hdiff as [Hdiff|Hdiff]; [contradiction|].
        rewrite (root_find_node_append_in root file_path n fn Hfind), Hfind.
        unfold Output.file_find_node. cbn [Output.children]. rewrite find_snoc.
        destruct (find _ (Output.children pNode fn)); [reflexivity|].
        destruct (String.eqb_spec (get_name n) name); [congruence | reflexivity].
      * now rewrite root_find_node_append_in_other.
  - unfold Output.root_find_node in *. split; [|split].
    + rewrite find_snoc, Hfind. cbn [Output.path]. rewrite String.eqb_refl.
      unfold Output.file_find_node. cbn [Output.children find].
      now rewrite String.eqb_refl.
    + split; reflexivity.
    + intros name other Hdiff. rewrite find_snoc. cbn [Output.path].
      destruct (find (fun fn : file_node => String.eqb (Output.path pNode fn) other) root)
        as [fn|] eqn:Hother; [reflexivity|].
      destruct (String.eqb_spec file_path other) as [<-|Hne]; [|reflexivity].
      destruct Hdiff as [Hdiff|Hdiff]; [contradiction|].
      unfold Output.file_find_node. cbn [Output.children find].
      destruct (String.eqb_spec (get_name n) name); [congruence | reflexivity].
Qed.

(** X12: what [add_data] keeps.  It stores exactly one more node, never
    removes or reorders file nodes, and creates a file node only for a path
    that has none: if the paths of the file nodes were distinct, they
    still are. *)
Theorem X12_add_data_keeps_one_node_per_file
        (root : list file_node) (n : pNode) (file_path : string) :
  Output.stored pNode (fst (add_data root n file_path))
  = S (Output.stored pNode root)
  /\ map (Output.path pNode) (fst (add_data root n file_path))
     = map (Output.path pNode) root
       ++ (if in_dec string_dec file_path (map (Output.path pNode) root)
           then [] else [file_path])
  /\ (NoDup (map (Output.path pNode) root) ->
      NoDup (map (Output.path pNode) (fst (add_data root n file_path)))).
Proof.
  assert (Hpaths : map (Output.path pNode) (fst (add_data root n file_path))
                   = map (Output.path pNode) root
                     ++ (if in_dec string_dec file_path (map (Output.path pNode) root)
                         then [] else [file_path])).
  { unfold Output.add_data.
    destruct (root_find_node root file_path) as [fn|] eqn:Hfind; cbn [fst].
    - rewrite map_path_append_in.
      destruct (in_dec string_dec file_path (map (Output.path pNode) root)) as [_|Hno];
        [now rewrite app_nil_r|].
      exfalso. apply Hno. pose proof (root_find_node_path _ _ _ Hfind) as <-.
      apply in_map. apply find_some in Hfind. tauto.
    - rewrite map_app. cbn [map Output.path].
      destruct (in_dec string_dec file_path (map (Output.path pNode) root)) as [Hyes|_];
        [|reflexivity].
      exfalso. apply in_map_iff in Hyes. destruct Hyes as (fn & Hp & Hin).
      pose proof (find_none _ _ Hfind fn Hin) as Hnone. cbn in Hnone.
      rewrite Hp, String.eqb_refl in Hnone. discriminate Hnone. }
  split; [|split; [exact Hpaths|]].
  - unfold Output.add_data.
    destruct (root_find_node root file_path) as [fn|] eqn:Hfind; cbn [fst].
    + now apply (stored_append_in root file_path n fn).
    + unfold Output.stored. rewrite map_app, list_sum_app. cbn. lia.
  - intros Hnodup. rewrite Hpaths.
    destruct (in_dec string_dec file_path (map (Output.path pNode) root)) as [_|Hno].
    + now rewrite app_nil_r.
    + apply NoDup_app; [exact Hnodup | repeat constructor; intros [] |].
      intros x Hx [<-|[]]. contradiction.
Qed.

End OutputTree.
